(** * IQN: an incremental quasi-Newton optimizer

    A shallow embedding of [IQN::Optimize] from
    [src/mlpack/core/optimizers/iqn/iqn_impl.hpp].

    Conventions of the embedding.

    - Points, gradients and curvature matrices live in exact arithmetic: the
      scalars are the elements of a real closed field [F] and the armadillo
      containers are MathComp matrices over [F].
    - The objective value is the only quantity the code tests for NaN and
      infinity, so it is a [double]: an element of [F] or one of the three
      non-finite classes.
    - In an update step the code divides by two scalars and inverts the
      aggregate matrix without any guard.  A zero divisor fills the new
      curvature matrix with infinities and NaN, which exact arithmetic cannot
      follow, and armadillo's [inv] raises on a singular matrix; the embedding
      stops the run with an [error] in both cases.
    - [size_t] is [N] with arithmetic modulo [2 ^ 64].
    - Calls of the objective function and the lines written to [Log] are
      collected, in program order, in a trace. *)

From Stdlib Require Import NArith Lia.
From HB Require Import structures.
From mathcomp Require Import boot order algebra.
From mathcomp Require Import algC.

Set Implicit Arguments.
Unset Strict Implicit.
Unset Printing Implicit Defensive.

Import GRing.Theory Num.Theory.
Local Open Scope ring_scope.

(** ** Machine integers *)

Module SizeT.

Definition modulus : N := N.pow 2 64.

(** [++i] on a [size_t]. *)
Definition incr (i : N) : N := N.modulo (N.succ i) modulus.

(** Number of iterations of [for (i = from; i != to; ++i)]. *)
Definition distance (from to : N) : N :=
  N.modulo (N.sub (N.add to modulus) from) modulus.

End SizeT.

(** ** Results that may fail *)

Inductive error : Type :=
  | NonFiniteArithmetic   (* a division by zero: the operands leave [F] *)
  | SingularMatrix        (* [B.i()] on a singular matrix: armadillo raises *)
  | IndexOutOfBounds      (* [t.slice(0)] of a cube with no slice *)
  | OutOfFuel.            (* the embedding's loop bound; never reached *)

Inductive exc (A : Type) : Type :=
  | Ok (a : A)
  | Raise (e : error).

Arguments Raise {A} e.

Definition bind {A B : Type} (m : exc A) (k : A -> exc B) : exc B :=
  match m with
  | Ok a => k a
  | Raise e => Raise e
  end.

Notation "x <- m ;; k" := (bind m (fun x => k))
  (at level 61, m at next level, right associativity).

(** ** Doubles *)

Section Doubles.

Variable F : rcfType.

Inductive double : Type :=
  | Fin (x : F)
  | PInf
  | NInf
  | NaN.

Definition isnan (x : double) : bool :=
  if x is NaN then true else false.

Definition isinf (x : double) : bool :=
  match x with
  | PInf | NInf => true
  | _ => false
  end.

(** [a + b] *)
Definition dadd (a b : double) : double :=
  match a, b with
  | NaN, _ | _, NaN => NaN
  | PInf, NInf | NInf, PInf => NaN
  | PInf, _ | _, PInf => PInf
  | NInf, _ | _, NInf => NInf
  | Fin x, Fin y => Fin (x + y)
  end.

(** [a / k] for a [size_t] [k] converted to double. *)
Definition ddiv_size (a : double) (k : nat) : double :=
  match a, k with
  | NaN, _ => NaN
  | Fin x, 0%N => if x == 0 then NaN else if 0 < x then PInf else NInf
  | Fin x, _ => Fin (x / k%:R)
  | inf, _ => inf
  end.

(** [a < b]: false as soon as one side is NaN. *)
Definition dlt (a b : double) : bool :=
  match a, b with
  | NaN, _ | _, NaN => false
  | Fin x, Fin y => x < y
  | NInf, NInf => false
  | NInf, _ => true
  | Fin _, PInf => true
  | _, _ => false
  end.

End Doubles.

Arguments PInf {F}.
Arguments NInf {F}.
Arguments NaN {F}.

(** ** The optimizer *)

Section Model.

Variable F : rcfType.

(** Shape of the caller's [iterate]. *)
Variables n_rows n_cols : nat.

(** [iterate.n_elem].  Armadillo stores matrices by columns; the index of
    element [(i, j)] in the memory of an [n_rows] x [n_cols] matrix is
    [j * n_rows + i]. *)
Definition n_elem : nat := (n_cols * n_rows)%N.

Local Notation mat := 'M[F]_(n_rows, n_cols).
Local Notation vec := 'cV[F]_n_elem.
Local Notation sqmat := 'M[F]_n_elem.

(** [arma::vectorise(A)], and [arma::mat(A.memptr(), A.n_elem, 1, false,
    false)]: the memory of [A] read as one column. *)
Definition vectorise (A : mat) : vec := (mxvec A^T)^T.

(** The [n_rows] x [n_cols] matrix whose memory is the column [v]. *)
Definition reshape (v : vec) : mat := (vec_mx v^T)^T.

(** [arma::as_scalar] of a 1 x 1 product. *)
Definition as_scalar (A : 'M[F]_1) : F := A 0 0.

(** [arma::norm] of a column: the Euclidean norm. *)
Definition norm (v : vec) : F := Num.sqrt (\sum_i (v i 0) ^+ 2).

(** The [DecomposableFunctionType] template parameter: what [Optimize] calls
    on [function].  [Gradient] returns what the C++ method writes to its
    third argument. *)
Record DecomposableFunctionType : Type := {
  NumFunctions : nat;
  Gradient : mat -> nat -> mat;
  Evaluate : mat -> nat -> double F
}.

(** The members of [class IQN]. *)
Record IQN : Type := {
  stepSize : F;
  maxIterations : N;
  tolerance : F
}.

Inductive event : Type :=
  | CallGradient (x : mat) (i : nat)
  | CallEvaluate (x : mat) (i : nat)
  | LogIteration (i : N) (objective : double F)
  | LogFailure (objective : double F)
  | LogTolerance
  | LogMaximum.

(** The variables of [Optimize] that live across statements.  [iterateVec]
    is the memory of the caller's [iterate]: the code builds [iterateVec] on
    [iterate.memptr()] without copying, so both names read and write the
    same [n_elem] scalars.  [gVec] is the same kind of view on [g]. *)
Record state : Type := State {
  y : nat -> mat;
  t : nat -> vec;
  Q : nat -> sqmat;
  B : sqmat;
  g : mat;
  u : vec;
  iterateVec : vec;
  trace : seq event
}.

Definition iterate (s : state) : mat := reshape (iterateVec s).
Definition gVec (s : state) : vec := vectorise (g s).

(** [c.slice(k) = v] *)
Definition set_slice {A : Type} (c : nat -> A) (k : nat) (v : A) : nat -> A :=
  fun i => if i == k then v else c i.

Inductive termination : Type :=
  | NUMERICAL_FAILURE
  | CONVERGED
  | MAX_ITERATIONS_REACHED.

(** What the caller observes when [Optimize] returns: the returned double,
    the [return] statement that produced it and the final variables, among
    them the memory of [iterate]. *)
Record result : Type := Result {
  outcome : termination;
  value : double F;
  final : state
}.

Section Optimize.

Variable opt : IQN.
Variable function : DecomposableFunctionType.

Let numFunctions : nat := NumFunctions function.

(** Body of the initialization loop, lines 48-56. *)
Definition init_step (initialIterate : mat) (s : state) (i : nat) : state :=
  let t' := set_slice (t s) i (vectorise initialIterate) in
  let y' := set_slice (y s) i (Gradient function initialIterate i) in
  let Q' := set_slice (Q s) i 1%:M in
  State y' t' Q' (B s) (g s + y' i) (u s) (iterateVec s)
        (rcons (trace s) (CallGradient initialIterate i)).

(** Lines 41-65.  [initialIterate] is the matrix drawn by [arma::randn];
    [iterate] is the caller's argument.  [u] is declared after the loop and
    holds zero until then.  With no function, [t.slice(0)] is out of range. *)
Definition initialize (initialIterate iterate0 : mat) : exc state :=
  let s0 := State (fun=> 0) (fun=> 0) (fun=> 0) 1%:M 0 0
                  (vectorise iterate0) [::] in
  let s1 := foldl (init_step initialIterate) s0 (iota 0 numFunctions) in
  let g' := (numFunctions%:R)^-1 *: g s1 in
  if numFunctions is 0%N then Raise IndexOutOfBounds
  else Ok (State (y s1) (t s1) (Q s1) (B s1) g' (t s1 0%N)
                 (iterateVec s1) (trace s1)).

(** Lines 80-82. *)
Definition stochasticHessian (Qit : sqmat) (yy s : vec) : sqmat :=
  Qit + (as_scalar (yy^T *m s))^-1 *: (yy *m yy^T)
  - (as_scalar (s^T *m Qit *m s))^-1 *: (Qit *m s *m s^T *m Qit).

(** Lines 76-100: the work of an inner step that passed the test of
    line 74. *)
Definition update_step (s : state) (it : nat) : exc state :=
  let gradient := Gradient function (iterate s) it in
  let tr := rcons (trace s) (CallGradient (iterate s) it) in
  let sv := iterateVec s - t s it in
  let yy := vectorise (gradient - y s it) in
  if (as_scalar (yy^T *m sv) == 0) || (as_scalar (sv^T *m Q s it *m sv) == 0)
  then Raise NonFiniteArithmetic
  else
    let H := stochasticHessian (Q s it) yy sv in
    let B' := B s + (1 / numFunctions%:R) *: (H - Q s it) in
    let u' := u s + (1 / numFunctions%:R) *:
                      (H *m iterateVec s - Q s it *m t s it) in
    let g' := g s + (1 / numFunctions%:R) *: (gradient - y s it) in
    let Q' := set_slice (Q s) it H in
    let y' := set_slice (y s) it gradient in
    let t' := set_slice (t s) it (iterateVec s) in
    if B' \in unitmx then
      Ok (State y' t' Q' B' g' u'
                ((stepSize opt *: invmx B') *m (u' - vectorise g')
                 + (1 - stepSize opt) *: iterateVec s)
                tr)
    else Raise SingularMatrix.

(** Body of the inner loop for the component [it], lines 74-101. *)
Definition inner_step (s : state) (it : nat) : exc state :=
  if 0 < norm (iterateVec s - t s it) then update_step s it else Ok s.

(** Line 72. *)
Definition selected (j : nat) : nat := (j.+1 %% numFunctions)%N.

(** The inner loop, lines 69-102, over the remaining values of [j]. *)
Fixpoint inner_loop (s : state) (js : seq nat) : exc state :=
  if js is j :: js' then
    s' <- inner_step s (selected j) ;; inner_loop s' js'
  else Ok s.

Definition sweep (s : state) : exc state :=
  inner_loop s (iota 0 numFunctions).

(** Lines 104-107: the value of [overallObjective] after the division. *)
Definition objective (x : mat) : double F :=
  ddiv_size
    (foldl (fun acc i => dadd acc (Evaluate function x i)) (Fin 0)
           (iota 0 numFunctions))
    numFunctions.

Definition emit (s : state) (es : seq event) : state :=
  State (y s) (t s) (Q s) (B s) (g s) (u s) (iterateVec s) (trace s ++ es).

(** One pass of the outer loop's body up to the log line, lines 69-111: the
    sweep, the [numFunctions] evaluations at the resulting iterate and the
    progress record.  Returns the new [overallObjective]. *)
Definition loop_body (i : N) (s : state) : exc (state * double F) :=
  s1 <- sweep s ;;
  let obj := objective (iterate s1) in
  Ok (emit s1 ([seq CallEvaluate (iterate s1) k | k <- iota 0 numFunctions]
               ++ [:: LogIteration i obj]),
      obj).

(** The outer loop, lines 67-131, entered with the counter at [i]. *)
Fixpoint outer_loop (fuel : nat) (i : N) (s : state)
    (overallObjective : double F) : exc result :=
  if N.eqb i (maxIterations opt) then
    Ok (Result MAX_ITERATIONS_REACHED overallObjective
               (emit s [:: LogMaximum]))
  else if fuel is fuel'.+1 then
    so <- loop_body i s ;;
    let: (s2, obj) := so in
    if isnan obj || isinf obj then
      Ok (Result NUMERICAL_FAILURE obj (emit s2 [:: LogFailure obj]))
    else if dlt obj (Fin (tolerance opt)) then
      Ok (Result CONVERGED obj (emit s2 [:: LogTolerance]))
    else outer_loop fuel' (SizeT.incr i) s2 obj
  else Raise OutOfFuel.

(** A bound on the number of values a [size_t] counter takes. *)
Definition fuel_bound : nat := N.to_nat SizeT.modulus.

Definition Optimize (initialIterate iterate0 : mat) : exc result :=
  s0 <- initialize initialIterate iterate0 ;;
  outer_loop fuel_bound 1%num s0 (Fin 0).

(** [k] passes of the outer loop's body with no exit taken, from the counter
    value [i]: the state and objective the loop holds afterwards. *)
Fixpoint passes (k : nat) (i : N) (s : state) (overallObjective : double F)
    : exc (state * double F) :=
  if k is k'.+1 then
    so <- loop_body i s ;; passes k' (SizeT.incr i) so.1 so.2
  else Ok (s, overallObjective).

(** The line written to [Log] before each [return]. *)
Definition terminal_event (r : result) : event :=
  match outcome r with
  | NUMERICAL_FAILURE => LogFailure (value r)
  | CONVERGED => LogTolerance
  | MAX_ITERATIONS_REACHED => LogMaximum
  end.

(** Neither test of lines 113 and 120 fires on [o]. *)
Definition continues (o : double F) : bool :=
  ~~ (isnan o || isinf o) && ~~ dlt o (Fin (tolerance opt)).

(** [r] is what the outer loop, entered at counter [i] with [s] and [o],
    returns after [k] passes: the passes before the last did not fire a
    test, and the last did unless the loop was left at the bound. *)
Definition returns_after (k : nat) (i : N) (s : state) (o : double F)
    (r : result) : Prop :=
  exists2 so, passes k i s o = Ok so &
    [/\ value r = so.2,
        final r = emit so.1 [:: terminal_event r],
        match outcome r with
        | NUMERICAL_FAILURE => (0 < k)%N /\ isnan (value r) || isinf (value r)
        | CONVERGED =>
            [/\ (0 < k)%N, ~~ (isnan (value r) || isinf (value r))
               & dlt (value r) (Fin (tolerance opt))]
        | MAX_ITERATIONS_REACHED => True
        end
      & forall j soj,
          (0 < j)%N ->
          (j < k)%N \/ (j = k /\ outcome r = MAX_ITERATIONS_REACHED) ->
          passes j i s o = Ok soj -> continues soj.2].

(** Number of completed sweeps a trace records: one progress line each. *)
Definition sweeps_logged (tr : seq event) : nat :=
  count (fun e => if e is LogIteration _ _ then true else false) tr.

Definition gradient_calls (tr : seq event) : nat :=
  count (fun e => if e is CallGradient _ _ then true else false) tr.

Definition evaluate_calls (tr : seq event) : nat :=
  count (fun e => if e is CallEvaluate _ _ then true else false) tr.

(** The run of [inner_step] over a list of component indices. *)
Fixpoint visit (s : state) (its : seq nat) : exc state :=
  if its is it :: its' then s' <- inner_step s it ;; visit s' its'
  else Ok s.

(** The three aggregates are the averages over the component records. *)
Definition aggregates_consistent (s : state) : Prop :=
  [/\ B s = (numFunctions%:R)^-1 *: \sum_(i < numFunctions) Q s i,
      g s = (numFunctions%:R)^-1 *: \sum_(i < numFunctions) y s i
    & u s = (numFunctions%:R)^-1 *:
              \sum_(i < numFunctions) (Q s i *m t s i)].

(** The states a run of [Optimize] goes through. *)
Inductive reachable (initialIterate iterate0 : mat) : state -> Prop :=
  | reach_init s :
      initialize initialIterate iterate0 = Ok s ->
      reachable initialIterate iterate0 s
  | reach_step s it s' :
      reachable initialIterate iterate0 s ->
      (it < numFunctions)%N ->
      inner_step s it = Ok s' ->
      reachable initialIterate iterate0 s'
  | reach_emit s es :
      reachable initialIterate iterate0 s ->
      reachable initialIterate iterate0 (emit s es).

(** No stored point differs from the iterate: every test of line 74 fails. *)
Definition idle (s : state) : Prop :=
  forall i, (i < numFunctions)%N -> t s i = iterateVec s.

(** The memory of a run on the components [f_i x = |x - c_i|^2 / 2], whose
    gradient at [x] is [x - c_i]: identity curvatures, stored gradients that
    belong to the stored points, and aggregates whose difference is the mean
    of the centres. *)
Definition quadratic_memory (c : nat -> mat) (s : state) : Prop :=
  [/\ forall i, (i < numFunctions)%N -> Q s i = 1%:M,
      forall i, (i < numFunctions)%N -> y s i = reshape (t s i) - c i,
      B s = 1%:M
    & u s - gVec s
      = vectorise ((numFunctions%:R)^-1 *: \sum_(i < numFunctions) c i)].

End Optimize.

(** [z^T * A * z >= 0] for every [z]. *)
Definition positive_semidefinite (A : sqmat) : Prop :=
  forall z : vec, 0 <= as_scalar (z^T *m A *m z).

End Model.

(** ** The rotation of the convolution layer *)

Section Rotation.

(** The element type [eT] of the templates. *)
Variable eT : Type.
Variables n_rows n_cols : nat.

(** [arma::flipud]: the rows in reverse order. *)
Definition flipud (X : 'M[eT]_(n_rows, n_cols)) : 'M[eT]_(n_rows, n_cols) :=
  \matrix_(i, j) X (rev_ord i) j.

(** [arma::fliplr]: the columns in reverse order. *)
Definition fliplr (X : 'M[eT]_(n_rows, n_cols)) : 'M[eT]_(n_rows, n_cols) :=
  \matrix_(i, j) X i (rev_ord j).

(** [Convolution::Rotate180] on a dense matrix, convolution.hpp lines
    362-367. *)
Definition Rotate180 (input : 'M[eT]_(n_rows, n_cols))
    : 'M[eT]_(n_rows, n_cols) :=
  fliplr (flipud input).

(** [Convolution::Rotate180] on a cube, given by its slices, lines 346-354:
    a cube of the same three sizes whose slices are the rotated slices. *)
Definition Rotate180_cube (input : seq 'M[eT]_(n_rows, n_cols))
    : seq 'M[eT]_(n_rows, n_cols) :=
  [seq fliplr (flipud slice) | slice <- input].

End Rotation.

Arguments LogIteration {F n_rows n_cols} i objective.
Arguments LogFailure {F n_rows n_cols} objective.
Arguments LogTolerance {F n_rows n_cols}.
Arguments LogMaximum {F n_rows n_cols}.
Arguments fuel_bound : simpl never.

(** * A one-dimensional instance *)

Module Example.

(** One component, [f x = x ^ 2 / 2 + 1], over the real algebraic numbers. *)
Definition bowl : DecomposableFunctionType algR 1 1 :=
  {| NumFunctions := 1;
     Gradient := fun x _ => x;
     Evaluate := fun x _ => Fin ((x 0 0) ^+ 2 / 2%:R + 1) |}.

(** Full steps, tolerance zero, and [k] for [maxIterations]. *)
Definition budget (k : N) : IQN algR :=
  {| stepSize := 1; maxIterations := k; tolerance := 0 |}.

Definition origin : 'M[algR]_(1, 1) := 0.

Definition unit_point : 'M[algR]_(1, 1) := 1%:M.

Definition blank : state algR 1 1 :=
  State (fun=> 0) (fun=> 0) (fun=> 0) 0 0 0 0 [::].

(** The variables after the initialization with the random point at the
    origin, for the caller's [iterate0]. *)
Definition started (iterate0 : 'M[algR]_(1, 1)) : state algR 1 1 :=
  if initialize bowl origin iterate0 is Ok s then s else blank.

(** What [Optimize] returns there under the budget [k]. *)
Definition returned (k : N) (iterate0 : 'M[algR]_(1, 1)) : result algR 1 1 :=
  if Optimize (budget k) bowl origin iterate0 is Ok r then r
  else Result MAX_ITERATIONS_REACHED (Fin 0) blank.

End Example.

(** * More instances *)

Module Instances.

(** One linear component, [f x = x]: its gradient is the same everywhere. *)
Definition slope : DecomposableFunctionType algR 1 1 :=
  {| NumFunctions := 1;
     Gradient := fun _ _ => 1%:M;
     Evaluate := fun x _ => Fin (x 0 0) |}.

(** The centres of [Example.bowl] seen as a sum of quadratics. *)
Definition centre (i : nat) : 'M[algR]_(1, 1) := 0.

(** The variables after the initialization on [slope], with the random point
    at the origin and the caller's iterate at [Example.unit_point]. *)
Definition slope_started : state algR 1 1 :=
  if initialize slope Example.origin Example.unit_point is Ok s then s
  else Example.blank.

End Instances.

(** * Properties *)

(** ** Counting with [size_t] *)

Module SizeTFacts.

Import SizeT.

Lemma modulus_gt1 : (1 < modulus)%num.
Proof. by []. Qed.

Lemma incr_small (i : N) : (N.succ i < modulus)%num -> incr i = N.succ i.
Proof. by move=> lt; rewrite /incr N.mod_small. Qed.

Lemma incr_wrap (i : N) : N.succ i = modulus -> incr i = 0%num.
Proof.
by rewrite /incr => ->; rewrite N.Div0.mod_same.
Qed.

Lemma incr_lt (i : N) : (incr i < modulus)%num.
Proof. by apply: N.mod_lt; have := modulus_gt1; lia. Qed.

Lemma distance_le (i m : N) :
  (i <= m)%num -> (m < modulus)%num -> distance i m = (m - i)%num.
Proof.
move=> le lt; rewrite /distance.
have -> : (m + modulus - i = (m - i) + 1 * modulus)%num by lia.
by rewrite N.Div0.mod_add N.mod_small //; lia.
Qed.

Lemma distance_gt (i m : N) :
  (m < i)%num -> (i < modulus)%num -> distance i m = (m + modulus - i)%num.
Proof. by move=> lt1 lt2; rewrite /distance N.mod_small //; lia. Qed.

Lemma distance_same (i : N) : (i < modulus)%num -> distance i i = 0%num.
Proof. by move=> lt; rewrite distance_le //; lia. Qed.

(** One more iteration is needed exactly when the counter differs from the
    bound. *)
Lemma distance_incr (i m : N) :
  (i < modulus)%num -> (m < modulus)%num -> i <> m ->
  distance i m = N.succ (distance (incr i) m).
Proof.
move=> lti ltm ne.
have [lt|eq] : (N.succ i < modulus)%num \/ N.succ i = modulus by lia.
- rewrite incr_small //.
  have [le|gt] : (i <= m)%num \/ (m < i)%num by lia.
  + by rewrite !distance_le //; lia.
  + by rewrite !distance_gt //; lia.
- by rewrite incr_wrap // distance_gt ?distance_le //; lia.
Qed.

Lemma distance_from_one (m : N) :
  (1 <= m)%num -> (m < modulus)%num -> distance 1 m = (m - 1)%num.
Proof. exact: distance_le. Qed.

Lemma distance_lt (i m : N) : (distance i m < modulus)%num.
Proof. by apply: N.mod_lt; have := modulus_gt1; lia. Qed.

End SizeTFacts.

Section Theory.

Variable F : rcfType.
Variables n_rows n_cols : nat.
Variable opt : IQN F.
Variable function : DecomposableFunctionType F n_rows n_cols.

Local Notation numFunctions := (NumFunctions function).

Local Notation mat := 'M[F]_(n_rows, n_cols).
Local Notation vec := 'cV[F]_(n_elem n_rows n_cols).
Local Notation sqmat := 'M[F]_(n_elem n_rows n_cols).
Local Notation n_elem := (n_elem n_rows n_cols).
Local Notation state := (state F n_rows n_cols).
Local Notation result := (result F n_rows n_cols).
Local Notation event := (event F n_rows n_cols).
Local Notation vectorise := (@vectorise F n_rows n_cols).
Local Notation reshape := (@reshape F n_rows n_cols).
Local Notation norm := (@norm F n_rows n_cols).
Local Notation init_step := (init_step function).
Local Notation initialize := (initialize function).
Local Notation update_step := (update_step opt function).
Local Notation inner_step := (inner_step opt function).
Local Notation selected := (selected function).
Local Notation inner_loop := (inner_loop opt function).
Local Notation sweep := (sweep opt function).
Local Notation objective := (objective function).
Local Notation loop_body := (loop_body opt function).
Local Notation outer_loop := (outer_loop opt function).
Local Notation passes := (passes opt function).
Local Notation returns_after := (returns_after opt function).
Local Notation continues := (continues opt).
Local Notation Optimize := (Optimize opt function).
Local Notation visit := (visit opt function).
Local Notation aggregates_consistent := (aggregates_consistent function).
Local Notation reachable := (reachable opt function).
Local Notation idle := (idle function).
Local Notation quadratic_memory := (quadratic_memory function).

(** ** Views and slices *)

Lemma vectoriseK : cancel vectorise reshape.
Proof. by move=> A; rewrite /reshape /vectorise trmxK mxvecK trmxK. Qed.

Lemma reshapeK : cancel reshape vectorise.
Proof. by move=> v; rewrite /reshape /vectorise trmxK vec_mxK trmxK. Qed.

Lemma vectoriseB (A1 A2 : mat) :
  vectorise (A1 - A2) = vectorise A1 - vectorise A2.
Proof. by rewrite /vectorise !linearB. Qed.

Lemma vectorise0 : vectorise 0 = 0.
Proof. by rewrite /vectorise trmx0 linear0 trmx0. Qed.

Lemma reshape0 : reshape 0 = 0.
Proof. by rewrite /reshape trmx0 linear0 trmx0. Qed.

Lemma norm_gt0 (v : vec) : (0 < norm v) = (v != 0).
Proof.
have ge0 : 0 <= \sum_i (v i 0) ^+ 2 by apply: sumr_ge0 => i _; exact: sqr_ge0.
have sq_ge0 (i : 'I_n_elem) : true -> 0 <= (v i 0) ^+ 2 by move=> _; exact: sqr_ge0.
rewrite /norm sqrtr_gt0 lt0r ge0 andbT (psumr_eq0 _ sq_ge0).
congr (~~ _); apply/allP/eqP => [h|-> i _].
  apply/colP => i; rewrite mxE; apply/eqP.
  by have := h i (mem_index_enum i); rewrite /= sqrf_eq0.
by rewrite /= mxE expr0n.
Qed.

Lemma moved_norm (a b : vec) : (0 < norm (a - b)) = (a != b).
Proof. by rewrite norm_gt0 subr_eq0. Qed.

Lemma set_slice_same (A : Type) (c : nat -> A) k v : set_slice c k v k = v.
Proof. by rewrite /set_slice eqxx. Qed.

Lemma set_slice_other (A : Type) (c : nat -> A) k v i :
  i != k -> set_slice c k v i = c i.
Proof. by rewrite /set_slice => /negbTE ->. Qed.

(** A sum over the slices after one slice was rewritten. *)
Lemma sum_rewritten (V : zmodType) (n it : nat) (c c' : nat -> V) :
  (it < n)%N -> (forall i, i != it -> c' i = c i) ->
  \sum_(i < n) c' i = \sum_(i < n) c i + (c' it - c it).
Proof.
move=> lt_it same.
rewrite (bigD1 (Ordinal lt_it)) //= [in RHS](bigD1 (Ordinal lt_it)) //=.
have -> : \sum_(i < n | i != Ordinal lt_it) c' i
          = \sum_(i < n | i != Ordinal lt_it) c i.
  by apply: eq_bigr => i ne; apply: same; apply: contraNneq ne => e; apply/eqP/val_inj.
by rewrite [c it + _]addrC -addrA [c it + _]addrC subrK addrC.
Qed.

(** ** Initialization *)

Lemma init_range (m k i : nat) :
  (m <= i < m + k.+1)%N = (i == m) || (m.+1 <= i < m.+1 + k)%N.
Proof.
rewrite addSnnS [(m <= i)%N]leq_eqVlt andb_orl eq_sym.
by case: eqP => [->|_] //=; rewrite -addSnnS ltnS leq_addr.
Qed.

Lemma init_fold (x0 : mat) (k m : nat) (s : state) :
  let s1 := foldl (init_step x0) s (iota m k) in
  [/\ forall i, y s1 i = if (m <= i < m + k)%N then Gradient function x0 i
                         else y s i,
      forall i, t s1 i = if (m <= i < m + k)%N then vectorise x0 else t s i,
      forall i, Q s1 i = if (m <= i < m + k)%N then 1%:M else Q s i,
      g s1 = g s + \sum_(i <- iota m k) Gradient function x0 i
    & [/\ B s1 = B s, u s1 = u s, iterateVec s1 = iterateVec s
        & trace s1 = trace s ++ [seq CallGradient x0 i | i <- iota m k]]].
Proof.
elim: k m s => [|k IH] m s /=.
  rewrite big_nil addr0 cats0 addn0.
  by split=> // i; case: leqP => // /leq_gtF ->.
have [hy ht hQ hg [hB hu hi htr]] := IH m.+1 (init_step x0 s m).
split=> [i|i|i||].
- by rewrite hy init_range /= /set_slice; case: eqP => [->|] //; rewrite ltnn.
- by rewrite ht init_range /= /set_slice; case: eqP => [->|] //; rewrite ltnn.
- by rewrite hQ init_range /= /set_slice; case: eqP => [->|] //; rewrite ltnn.
- by rewrite hg /= set_slice_same big_cons addrA.
- by rewrite hB hu hi htr /= -cats1 -catA.
Qed.

Lemma nat_unit (n : nat) : (0 < n)%N -> (n%:R : F) != 0.
Proof. by rewrite pnatr_eq0 lt0n. Qed.

Lemma sum_iota_ord (V : zmodType) (n : nat) (c : nat -> V) :
  \sum_(i <- iota 0 n) c i = \sum_(i < n) c i.
Proof. by rewrite -[n in iota 0 n]subn0 -/(index_iota 0 n) big_mkord. Qed.

(** What [initialize] leaves in the variables. *)
Lemma initializeP (x0 it0 : mat) :
  (0 < numFunctions)%N ->
  exists2 s, initialize x0 it0 = Ok s &
    [/\ forall i, (i < numFunctions)%N ->
          [/\ t s i = vectorise x0, Q s i = 1%:M
             & y s i = Gradient function x0 i],
        g s = (numFunctions%:R)^-1 *:
                \sum_(i < numFunctions) Gradient function x0 i,
        B s = 1%:M, u s = vectorise x0
      & iterateVec s = vectorise it0
        /\ trace s = [seq CallGradient x0 i | i <- iota 0 numFunctions]].
Proof.
move=> n_gt0; rewrite /initialize.
set s0 := State (fun=> 0) _ _ _ _ _ _ _.
have [hy ht hQ hg [hB hu hi htr]] := init_fold x0 numFunctions 0 s0.
have -> : forall (A : Type) (a b : A),
    (if numFunctions is 0%N then a else b) = b.
  by move=> A a b; case: (numFunctions) n_gt0.
eexists; first by reflexivity.
rewrite /= hg ht hB hi htr /= add0r add0n sum_iota_ord n_gt0.
by split=> // i lt_i; rewrite hy ht hQ add0n /= lt_i.
Qed.

(** ** Inner steps *)

Lemma inner_step_skip (s : state) (it : nat) :
  iterateVec s = t s it -> inner_step s it = Ok s.
Proof. by move=> e; rewrite /inner_step moved_norm e eqxx. Qed.

Lemma inner_step_moved (s : state) (it : nat) :
  iterateVec s != t s it -> inner_step s it = update_step s it.
Proof. by move=> ne; rewrite /inner_step moved_norm ne. Qed.

(** What a successful update leaves in the variables. *)
Lemma update_stepP (s s' : state) (it : nat) :
  update_step s it = Ok s' ->
  let gradient := Gradient function (iterate s) it in
  let sv := iterateVec s - t s it in
  let yy := vectorise (gradient - y s it) in
  let H := stochasticHessian (Q s it) yy sv in
  [/\ as_scalar (yy^T *m sv) != 0 /\ as_scalar (sv^T *m Q s it *m sv) != 0,
      [/\ y s' = set_slice (y s) it gradient,
          t s' = set_slice (t s) it (iterateVec s)
        & Q s' = set_slice (Q s) it H],
      [/\ B s' = B s + (1 / numFunctions%:R) *: (H - Q s it),
          u s' = u s + (1 / numFunctions%:R) *:
                         (H *m iterateVec s - Q s it *m t s it)
        & g s' = g s + (1 / numFunctions%:R) *: (gradient - y s it)],
      B s' \in unitmx /\
      iterateVec s' = (stepSize opt *: invmx (B s')) *m (u s' - gVec s')
                      + (1 - stepSize opt) *: iterateVec s
    & trace s' = rcons (trace s) (CallGradient (iterate s) it)].
Proof.
rewrite /update_step; case: ifP => // /norP [d1 d2].
by case: ifP => // Bu [<-].
Qed.

(** ** Aggregate consistency *)

Lemma consistent_initialize (x0 it0 : mat) (s : state) :
  initialize x0 it0 = Ok s -> aggregates_consistent s.
Proof.
case: (posnP numFunctions) => [n0|n_gt0].
  by rewrite /initialize; case: (numFunctions) n0.
have [s1 -> [hs hg hB hu _]] := initializeP x0 it0 n_gt0 => -[<-].
have n_unit := nat_unit n_gt0.
split.
- rewrite hB (eq_bigr (fun=> 1%:M)) => [i _|]; first by have [] := hs i (ltn_ord i).
  by rewrite sumr_const card_ord -scaler_nat scalerA mulVf ?scale1r.
- by rewrite hg; congr (_ *: _); apply: eq_bigr => i _; have [] := hs i (ltn_ord i).
- rewrite hu (eq_bigr (fun=> vectorise x0)) => [i _|].
    by have [-> -> _] := hs i (ltn_ord i); rewrite mul1mx.
  by rewrite sumr_const card_ord -scaler_nat scalerA mulVf ?scale1r.
Qed.

Lemma consistent_update (s s' : state) (it : nat) :
  (it < numFunctions)%N -> aggregates_consistent s ->
  update_step s it = Ok s' -> aggregates_consistent s'.
Proof.
move=> lt_it [cB cg cu] /update_stepP /= [_ [ey et eQ] [eB eu eg] _ _].
split.
- rewrite eB cB div1r -scalerDr; congr (_ *: _).
  rewrite eQ [RHS](@sum_rewritten _ _ it (Q s)) ?set_slice_same //.
  by move=> i ne; rewrite set_slice_other.
- rewrite eg cg div1r -scalerDr; congr (_ *: _).
  rewrite ey [RHS](@sum_rewritten _ _ it (y s)) ?set_slice_same //.
  by move=> i ne; rewrite set_slice_other.
- rewrite eu cu div1r -scalerDr; congr (_ *: _).
  rewrite [RHS](@sum_rewritten _ _ it (fun i => Q s i *m t s i)
                                     (fun i => Q s' i *m t s' i)) // eQ et.
    by move=> i ne; rewrite !set_slice_other.
  by rewrite !set_slice_same.
Qed.

Lemma consistent_emit (s : state) (es : seq event) :
  aggregates_consistent s -> aggregates_consistent (emit s es).
Proof. by []. Qed.

Lemma consistent_inner_step (s s' : state) (it : nat) :
  (it < numFunctions)%N -> aggregates_consistent s ->
  inner_step s it = Ok s' -> aggregates_consistent s'.
Proof.
move=> lt_it cs; rewrite /inner_step; case: ifP => _; last by case=> <-.
exact: consistent_update.
Qed.

Lemma selected_lt (j : nat) :
  (0 < numFunctions)%N -> (selected j < numFunctions)%N.
Proof. by move=> n_gt0; rewrite /selected ltn_mod. Qed.

Lemma initialize_pos (x0 it0 : mat) (s : state) :
  initialize x0 it0 = Ok s -> (0 < numFunctions)%N.
Proof. by rewrite /initialize; case: (numFunctions). Qed.

Lemma reachable_pos (x0 it0 : mat) (s : state) :
  reachable x0 it0 s -> (0 < numFunctions)%N.
Proof. by elim=> // s0 /initialize_pos. Qed.

(** ** The curvature update *)

Lemma as_scalarE (A : 'M[F]_1) : A = (as_scalar A)%:M.
Proof. exact: mx11_scalar. Qed.

Lemma self_product (v : vec) : as_scalar (v^T *m v) = \sum_i (v i 0) ^+ 2.
Proof.
by rewrite /as_scalar mxE; apply: eq_bigr => i _; rewrite mxE expr2.
Qed.

Lemma self_product_neq0 (v : vec) : v != 0 -> as_scalar (v^T *m v) != 0.
Proof.
by rewrite -norm_gt0 /norm sqrtr_gt0 self_product => /lt0r_neq0.
Qed.

Lemma secant_equation (Qit : sqmat) (yy sv : vec) :
  as_scalar (yy^T *m sv) != 0 -> as_scalar (sv^T *m Qit *m sv) != 0 ->
  stochasticHessian Qit yy sv *m sv = yy.
Proof.
rewrite /stochasticHessian.
move: (as_scalarE (yy^T *m sv)) (as_scalarE (sv^T *m Qit *m sv)).
set a := as_scalar _; set b := as_scalar _ => ea eb d1 d2.
rewrite mulmxBl mulmxDl -!scalemxAl.
rewrite -[yy *m yy^T *m sv]mulmxA ea mul_mx_scalar.
rewrite -[Qit *m sv *m sv^T *m Qit *m sv]mulmxA -[Qit *m sv *m sv^T *m _]mulmxA.
rewrite [sv^T *m (Qit *m sv)]mulmxA eb mul_mx_scalar.
by rewrite !scalerA !mulVf // !scale1r addrAC subrr add0r.
Qed.

Lemma stochasticHessian_sym (Qit : sqmat) (yy sv : vec) :
  Qit^T = Qit -> (stochasticHessian Qit yy sv)^T = stochasticHessian Qit yy sv.
Proof.
move=> symQ; rewrite /stochasticHessian linearB linearD /= !linearZ /=.
by rewrite !trmx_mul !trmxK symQ !mulmxA.
Qed.

(** With [y = s] the identity is its own update. *)
Lemma stochasticHessian_identity (v : vec) :
  stochasticHessian 1%:M v v = 1%:M.
Proof. by rewrite /stochasticHessian !mulmx1 !mul1mx addrK. Qed.

Lemma symmetric_reachable (x0 it0 : mat) (s : state) :
  reachable x0 it0 s -> (forall i, (Q s i)^T = Q s i) /\ (B s)^T = B s.
Proof.
elim=> {s} [s init|s it s' _ [symQ symB] lt_it|s es _ //].
  have n_gt0 := initialize_pos init.
  have [s1 e1 [hs _ hB _ _]] := initializeP x0 it0 n_gt0.
  move: init; rewrite e1 => -[<-]; rewrite hB trmx1; split=> // i.
  case: (ltnP i numFunctions) => [/hs [_ -> _]|ge]; first exact: trmx1.
  move: e1; rewrite /initialize.
  set s0 := State (fun=> 0) _ _ _ _ _ _ _.
  have [_ _ hQ _ _] := init_fold x0 numFunctions 0 s0.
  case: (numFunctions) n_gt0 hQ ge => // n' _ hQ ge [<-] /=.
  by rewrite hQ add0n /= ltnNge ge /= trmx0.
rewrite /inner_step; case: ifP => _; last by case=> <-.
move=> /update_stepP /= [_ [_ _ eQ] [eB _ _] _ _].
have symH := stochasticHessian_sym
  (vectorise (Gradient function (iterate s) it - y s it))
  (iterateVec s - t s it) (symQ it).
split=> [i|]; first by rewrite eQ /set_slice; case: eqP.
by rewrite eB linearD /= linearZ /= linearB /= symH symQ symB.
Qed.

(** ** Sweeps and passes *)

Lemma bind_Ok (A C : Type) (a : A) (k : A -> exc C) : bind (Ok a) k = k a.
Proof. by []. Qed.

Lemma Ok_inj (A : Type) (a b : A) : Ok a = Ok b -> a = b.
Proof. by case. Qed.

Lemma bind_Raise (A C : Type) (e : error) (k : A -> exc C) :
  bind (Raise e) k = Raise e.
Proof. by []. Qed.

Lemma inner_loop_visit (s : state) (js : seq nat) :
  inner_loop s js = visit s [seq selected j | j <- js].
Proof. by elim: js s => //= j js IH s; case: inner_step. Qed.

Lemma inner_step_reachable (x0 it0 : mat) (s s' : state) (j : nat) :
  reachable x0 it0 s -> inner_step s (selected j) = Ok s' ->
  reachable x0 it0 s'.
Proof.
move=> rs; apply: (reach_step rs).
exact/selected_lt/(reachable_pos rs).
Qed.

Lemma inner_loop_reachable (x0 it0 : mat) (js : seq nat) (s s' : state) :
  reachable x0 it0 s -> inner_loop s js = Ok s' -> reachable x0 it0 s'.
Proof.
elim: js s => [s rs [<-] //|j js IH s rs /=].
case e: inner_step => [s1|//] /=; apply: IH.
exact: inner_step_reachable e.
Qed.

Lemma loop_bodyP (i : N) (s : state) (so : state * double F) :
  loop_body i s = Ok so ->
  exists2 s1, sweep s = Ok s1 &
    so = (emit s1
            ([seq CallEvaluate (iterate s1) k | k <- iota 0 numFunctions]
             ++ [:: LogIteration i (objective (iterate s1))]),
          objective (iterate s1)).
Proof. by rewrite /loop_body; case: sweep => //= s1 [<-]; exists s1. Qed.

Lemma loop_body_reachable (x0 it0 : mat) (i : N) (s : state)
    (so : state * double F) :
  reachable x0 it0 s -> loop_body i s = Ok so -> reachable x0 it0 so.1.
Proof.
move=> rs /loop_bodyP [s1 sw ->] /=; apply: reach_emit.
exact: inner_loop_reachable sw.
Qed.

Lemma loop_body_objective (i : N) (s : state) (so : state * double F) :
  loop_body i s = Ok so -> so.2 = objective (iterate so.1).
Proof. by move=> /loop_bodyP [s1 _ ->]. Qed.

Lemma passes_reachable (x0 it0 : mat) (k : nat) (i : N) (s : state)
    (o : double F) (so : state * double F) :
  reachable x0 it0 s -> passes k i s o = Ok so -> reachable x0 it0 so.1.
Proof.
elim: k i s o => [i s o rs [<-] //|k IH i s o rs /=].
case e: loop_body => [so1|//] /=; apply: IH.
exact: loop_body_reachable e.
Qed.

(** After at least one pass the objective held by the loop is the mean at
    the iterate held by the loop. *)
Lemma passes_objective (k : nat) (i : N) (s : state) (o : double F)
    (so : state * double F) :
  passes k.+1 i s o = Ok so -> so.2 = objective (iterate so.1).
Proof.
elim: k i s o => [|k IH] i s o /=.
  by case e: loop_body => [so1|//] /= [<-]; exact: loop_body_objective e.
by case e: loop_body => [so1|//] /=; exact: IH.
Qed.

(** ** The outer loop *)

Lemma outer_loop_done (fuel : nat) (s : state) (o : double F) :
  outer_loop fuel (maxIterations opt) s o
  = Ok (Result MAX_ITERATIONS_REACHED o (emit s [:: LogMaximum])).
Proof. by case: fuel => [|fuel] /=; rewrite N.eqb_refl. Qed.

Lemma outer_loop_next (fuel : nat) (i : N) (s : state) (o : double F) :
  i <> maxIterations opt ->
  outer_loop fuel.+1 i s o
  = (so <- loop_body i s ;;
     if isnan so.2 || isinf so.2 then
       Ok (Result NUMERICAL_FAILURE so.2 (emit so.1 [:: LogFailure so.2]))
     else if dlt so.2 (Fin (tolerance opt)) then
       Ok (Result CONVERGED so.2 (emit so.1 [:: LogTolerance]))
     else outer_loop fuel (SizeT.incr i) so.1 so.2).
Proof. by move/N.eqb_neq => /= ->; case: loop_body => //= -[]. Qed.

(** The loop leaves at the bound when no test ever fires. *)
Lemma outer_loop_budget (fuel : nat) (i : N) (s : state) (o : double F) :
  (forall x, continues (objective x)) ->
  (i < SizeT.modulus)%num -> (maxIterations opt < SizeT.modulus)%num ->
  (N.to_nat (SizeT.distance i (maxIterations opt)) <= fuel)%N ->
  outer_loop fuel i s o
  = (so <- passes (N.to_nat (SizeT.distance i (maxIterations opt))) i s o ;;
     Ok (Result MAX_ITERATIONS_REACHED so.2 (emit so.1 [:: LogMaximum]))).
Proof.
move=> quiet + ltm; elim: fuel i s o => [|fuel IH] i s o lti.
  case: (N.eq_dec i (maxIterations opt)) => [->|ne].
    by rewrite outer_loop_done SizeTFacts.distance_same.
  by rewrite (SizeTFacts.distance_incr lti ltm ne) N2Nat.inj_succ.
case: (N.eq_dec i (maxIterations opt)) => [->|ne].
  by rewrite outer_loop_done SizeTFacts.distance_same.
rewrite (SizeTFacts.distance_incr lti ltm ne) N2Nat.inj_succ ltnS => le.
rewrite outer_loop_next //=; case e: loop_body => [so|//] /=.
rewrite (loop_body_objective e).
have /andP [/negbTE -> /negbTE ->] := quiet (iterate so.1).
exact: IH (SizeTFacts.incr_lt i) le.
Qed.

Lemma fuel_enough (i : N) :
  (N.to_nat (SizeT.distance i (maxIterations opt)) <= fuel_bound)%N.
Proof.
rewrite /fuel_bound; apply/leP.
have := SizeTFacts.distance_lt i (maxIterations opt); lia.
Qed.

(** Every return of the loop, read as a number of passes: the loop is left
    by the first pass whose objective fires a test, or at the bound. *)
Lemma outer_loopP (fuel : nat) (i : N) (s : state) (o : double F)
    (r : result) :
  outer_loop fuel i s o = Ok r -> exists k, returns_after k i s o r.
Proof.
have at_bound f s' o' r' :
    outer_loop f (maxIterations opt) s' o' = Ok r' ->
    exists k, returns_after k (maxIterations opt) s' o' r'.
  rewrite outer_loop_done => -[<-]; exists 0%N, (s', o') => //=.
  by split=> // j soj j_gt0 [//|[e _]]; rewrite e in j_gt0.
elim: fuel i s o => [|fuel IH] i s o.
  case: (N.eq_dec i (maxIterations opt)) => [->|/N.eqb_neq ne]; first exact: at_bound.
  by rewrite /= ne.
case: (N.eq_dec i (maxIterations opt)) => [->|ne]; first exact: at_bound.
rewrite outer_loop_next //; case e: loop_body => [[s1 o1]|//] /=.
have pass1 : passes 1 i s o = Ok (s1, o1) by rewrite /= e.
case: ifP => [nonfinite [<-]|finite].
  exists 1%N, (s1, o1) => //=; split=> // j soj j_gt0 [|[]//].
  by case: j j_gt0.
case: ifP => [small [<-]|large /IH [k [so pk [ev ef eo quiet]]]].
  exists 1%N, (s1, o1) => //=; rewrite finite small.
  by split=> // j soj j_gt0 [|[]//]; case: j j_gt0.
exists k.+1, so; first by rewrite /= e.
split=> //; first by case: (outcome r) eo => // -[].
case=> // j soj _ cond /=; rewrite e /=; case: j cond => [_ [<-]|j cond].
  by rewrite /continues finite large.
apply: quiet => //; case: cond => [lt|[[->] ->]]; first by left.
by right.
Qed.

(** ** Traces *)

Lemma count_map_none (T : Type) (f : T -> event) (p : pred event)
    (l : seq T) :
  (forall x, p (f x) = false) -> count p [seq f x | x <- l] = 0%N.
Proof. by move=> h; rewrite count_map (@eq_count _ _ pred0) // count_pred0. Qed.

Lemma count_map_all (T : Type) (f : T -> event) (p : pred event)
    (l : seq T) :
  (forall x, p (f x) = true) -> count p [seq f x | x <- l] = size l.
Proof. by move=> h; rewrite count_map (@eq_count _ _ predT) // count_predT. Qed.

Section Counting.

(** A class of events that contains no gradient call. *)
Variable p : pred event.
Hypothesis no_gradient : forall x i, p (CallGradient x i) = false.

Lemma inner_step_count (s s' : state) (it : nat) :
  inner_step s it = Ok s' -> count p (trace s') = count p (trace s).
Proof.
rewrite /inner_step; case: ifP => _; last by case=> <-.
move=> /update_stepP /= [_ _ _ _ ->].
by rewrite -cats1 count_cat /= no_gradient !addn0.
Qed.

Lemma inner_loop_count (js : seq nat) (s s' : state) :
  inner_loop s js = Ok s' -> count p (trace s') = count p (trace s).
Proof.
elim: js s => [s [<-] //|j js IH s /=].
by case e: inner_step => [s1|//] /= /IH ->; exact: inner_step_count e.
Qed.

Lemma loop_body_count (i : N) (s : state) (so : state * double F) :
  loop_body i s = Ok so ->
  count p (trace so.1)
  = (count p (trace s)
     + count p ([seq CallEvaluate (iterate so.1) k | k <- iota 0 numFunctions]
                ++ [:: LogIteration i so.2]))%N.
Proof.
by move=> /loop_bodyP [s1 /inner_loop_count <- ->] /=; rewrite count_cat.
Qed.

End Counting.

Lemma passes_sweeps_logged (k : nat) (i : N) (s : state) (o : double F)
    (so : state * double F) :
  passes k i s o = Ok so ->
  sweeps_logged (trace so.1) = (sweeps_logged (trace s) + k)%N.
Proof.
elim: k i s o => [i s o [<-]|k IH i s o /=]; first by rewrite addn0.
case e: loop_body => [so1|//] /= /IH ->.
rewrite /sweeps_logged (loop_body_count _ e) // count_cat count_map_none //=.
by rewrite add0n addn0 -addnA add1n.
Qed.

Lemma passes_evaluate_calls (k : nat) (i : N) (s : state) (o : double F)
    (so : state * double F) :
  passes k i s o = Ok so ->
  evaluate_calls (trace so.1)
  = (evaluate_calls (trace s) + k * numFunctions)%N.
Proof.
elim: k i s o => [i s o [<-]|k IH i s o /=]; first by rewrite mul0n addn0.
case e: loop_body => [so1|//] /= /IH ->.
rewrite /evaluate_calls (loop_body_count _ e) // count_cat count_map_all //=.
by rewrite size_iota !addn0 mulSn addnA.
Qed.

Lemma initialize_counts (x0 it0 : mat) (s : state) :
  initialize x0 it0 = Ok s ->
  [/\ gradient_calls (trace s) = numFunctions,
      evaluate_calls (trace s) = 0%N & sweeps_logged (trace s) = 0%N].
Proof.
move=> init; have n_gt0 := initialize_pos init.
have [s1 e1 [_ _ _ _ [_ htr]]] := initializeP x0 it0 n_gt0.
move: init; rewrite e1 => -[<-]; rewrite htr.
rewrite /gradient_calls /evaluate_calls /sweeps_logged.
by rewrite count_map_all // size_iota !count_map_none.
Qed.

Lemma emit_count (p : pred event) (s : state) (es : seq event) :
  count p (trace (emit s es)) = (count p (trace s) + count p es)%N.
Proof. by rewrite /= count_cat. Qed.

(** ** The claims *)

(** C1. Aggregate consistency: after initialization and after every
    committed inner step of a run, [B], [g] and [u] are the averages over
    the [numFunctions] component records of [Q_i], [y_i] and [Q_i * t_i],
    although each is only ever changed by adding a [1 / numFunctions]
    multiple of a difference. *)
Theorem aggregate_consistency (x0 it0 : mat) (s : state) :
  reachable x0 it0 s -> aggregates_consistent s.
Proof.
elim=> {s} [s|s it s' _ cs lt_it step|s es _ cs].
- exact: consistent_initialize.
- exact: consistent_inner_step step.
- exact: consistent_emit.
Qed.

(** C2. Secant property of the rank-two update: with nonzero denominators
    the new curvature maps [s] to [y]; it is symmetric when the old one is;
    and along a run every stored curvature and the aggregate curvature are
    symmetric. *)
Theorem secant_property :
  (forall (Qit : sqmat) (yy sv : vec),
     as_scalar (yy^T *m sv) != 0 -> as_scalar (sv^T *m Qit *m sv) != 0 ->
     stochasticHessian Qit yy sv *m sv = yy
     /\ (Qit^T = Qit ->
         (stochasticHessian Qit yy sv)^T = stochasticHessian Qit yy sv))
  /\ (forall (s s' : state) (it : nat),
        iterateVec s != t s it -> inner_step s it = Ok s' ->
        Q s' it *m (iterateVec s - t s it)
        = vectorise (Gradient function (iterate s) it - y s it))
  /\ (forall (x0 it0 : mat) (s : state),
        reachable x0 it0 s ->
        (forall i, (Q s i)^T = Q s i) /\ (B s)^T = B s).
Proof.
split=> [Qit yy sv d1 d2|]; first split; first exact: secant_equation.
  exact: stochasticHessian_sym.
split=> [s s' it moved|x0 it0 s]; last exact: symmetric_reachable.
rewrite inner_step_moved // => /update_stepP /= [[d1 d2] [_ _ ->] _ _ _].
by rewrite set_slice_same secant_equation.
Qed.

(** C4. Initialization: every component record holds the random starting
    point, the identity and the gradient of its component there, at the cost
    of one gradient evaluation per component; the aggregates are the mean
    gradient, the identity and the random point.  The caller's iterate is
    not read. *)
Theorem initialization (x0 it0 : mat) :
  (0 < numFunctions)%N ->
  exists2 s, initialize x0 it0 = Ok s &
    [/\ forall i, (i < numFunctions)%N ->
          [/\ t s i = vectorise x0, Q s i = 1%:M
             & y s i = Gradient function x0 i],
        [/\ g s = (numFunctions%:R)^-1 *: \sum_(i < numFunctions) y s i,
            B s = 1%:M & u s = vectorise x0],
        iterate s = it0,
        trace s = [seq CallGradient x0 i | i <- iota 0 numFunctions]
      & gradient_calls (trace s) = numFunctions].
Proof.
move=> n_gt0; have [s init [hs hg hB hu [hi htr]]] := initializeP x0 it0 n_gt0.
exists s => //; split=> //.
- split=> //; rewrite hg; congr (_ *: _); apply: eq_bigr => i _.
  by have [] := hs i (ltn_ord i).
- by rewrite /iterate hi vectoriseK.
- by rewrite htr /gradient_calls count_map_all // size_iota.
Qed.

(** C6. Skip idempotence: when the iterate equals the stored point of the
    selected component, the test of line 74 fails and the step returns the
    state it was given: no call, no write. *)
Theorem skip_idempotence (s : state) (it : nat) :
  iterateVec s = t s it ->
  (0 < norm (iterateVec s - t s it)) = false /\ inner_step s it = Ok s.
Proof.
move=> same; split; last exact: inner_step_skip.
by rewrite moved_norm same eqxx.
Qed.

(** C7. Cyclic visiting order: a sweep runs the inner step on the components
    [1, 2, ..., numFunctions - 1, 0], in this order, which visits every index
    below [numFunctions] once and no other. *)
Theorem cyclic_visiting_order (s : state) :
  (0 < numFunctions)%N ->
  [/\ [seq selected j | j <- iota 0 numFunctions]
      = rcons (iota 1 numFunctions.-1) 0%N,
      sweep s = visit s (rcons (iota 1 numFunctions.-1) 0%N)
    & forall i, count_mem i (rcons (iota 1 numFunctions.-1) 0%N)
                = (i < numFunctions)%N].
Proof.
move=> n_gt0.
have order : [seq selected j | j <- iota 0 numFunctions]
             = rcons (iota 1 numFunctions.-1) 0%N.
  rewrite /selected; case: (numFunctions) n_gt0 => // n _.
  rewrite -[in iota 0 n.+1]addn1 iotaD add0n map_cat /= modnn cats1 /=.
  congr rcons; rewrite -[iota 1 n]/(iota (1 + 0) n) iotaDl.
  by apply/eq_in_map => j; rewrite mem_iota add0n /= add1n => lt; rewrite modn_small.
split=> // [|i]; first by rewrite /sweep inner_loop_visit order.
have /permP -> : perm_eq (rcons (iota 1 numFunctions.-1) 0%N)
                         (iota 0 numFunctions).
  by rewrite perm_rcons; case: (numFunctions) n_gt0.
by rewrite count_uniq_mem ?iota_uniq // mem_iota add0n.
Qed.

(** C8. Damped Newton step: a step that moves, with nonzero denominators
    and an invertible updated aggregate curvature, stores the aggregates
    updated with this component's differences and sets the iterate to
    [stepSize * B^-1 * (u - g) + (1 - stepSize) * iterate] computed from
    them; for [stepSize = 1] this is the solution of [B * x = u - g]. *)
Theorem damped_newton_step (s : state) (it : nat) :
  let gradient := Gradient function (iterate s) it in
  let sv := iterateVec s - t s it in
  let yy := vectorise (gradient - y s it) in
  let H := stochasticHessian (Q s it) yy sv in
  let B' := B s + (1 / numFunctions%:R) *: (H - Q s it) in
  let u' := u s + (1 / numFunctions%:R) *:
                    (H *m iterateVec s - Q s it *m t s it) in
  let g' := g s + (1 / numFunctions%:R) *: (gradient - y s it) in
  iterateVec s != t s it ->
  as_scalar (yy^T *m sv) != 0 -> as_scalar (sv^T *m Q s it *m sv) != 0 ->
  B' \in unitmx ->
  exists2 s', inner_step s it = Ok s' &
    [/\ [/\ B s' = B', u s' = u' & g s' = g'],
        iterateVec s' = stepSize opt *: (invmx B' *m (u' - vectorise g'))
                        + (1 - stepSize opt) *: iterateVec s
      & stepSize opt = 1 ->
        iterateVec s' = invmx B' *m (u' - vectorise g')
        /\ B' *m iterateVec s' = u' - vectorise g'].
Proof.
move=> gradient sv yy H B' u' g' moved d1 d2 unitB.
rewrite inner_step_moved // /update_step -/gradient -/sv -/yy.
rewrite (negbTE d1) (negbTE d2) /= -/H -/B' unitB.
eexists; first by reflexivity.
rewrite /= -/u' -/g'; split; first by split.
  by rewrite -scalemxAl.
move=> ->; rewrite scale1r subrr scale0r addr0; split; first by [].
by rewrite mulmxA (mulmxV unitB) mul1mx.
Qed.

(** With the bound at 1 the loop is left at once. *)
Lemma Optimize_at_bound (x0 it0 : mat) (s0 : state) :
  maxIterations opt = 1%num -> initialize x0 it0 = Ok s0 ->
  Optimize x0 it0
  = Ok (Result MAX_ITERATIONS_REACHED (Fin 0) (emit s0 [:: LogMaximum])).
Proof.
move=> max1 init; rewrite /Optimize init bind_Ok.
by rewrite -[1%num]max1 outer_loop_done.
Qed.

(** The last log line is no call and no progress record. *)
Lemma counts_at_bound (s : state) (o : double F) :
  let r := Result MAX_ITERATIONS_REACHED o (emit s [:: LogMaximum]) in
  [/\ sweeps_logged (trace (final r)) = sweeps_logged (trace s),
      evaluate_calls (trace (final r)) = evaluate_calls (trace s)
    & gradient_calls (trace (final r)) = gradient_calls (trace s)].
Proof.
by rewrite /sweeps_logged /evaluate_calls /gradient_calls /= !count_cat /= !addn0.
Qed.

(** The loop bound of the embedding is not among the errors of a pass. *)
Lemma inner_step_fuel (s : state) (it : nat) (e : error) :
  inner_step s it = Raise e -> e <> OutOfFuel.
Proof.
rewrite /inner_step; case: ifP => // _.
by rewrite /update_step; case: ifP => [_ [<-]|_] //; case: ifP => // _ [<-].
Qed.

Lemma inner_loop_fuel (js : seq nat) (s : state) (e : error) :
  inner_loop s js = Raise e -> e <> OutOfFuel.
Proof.
elim: js s => [//|j js IH] s /=.
case st: inner_step => [s1|e2] /=; first exact: IH.
by case=> <-; exact: inner_step_fuel st.
Qed.

Lemma loop_body_fuel (i : N) (s : state) (e : error) :
  loop_body i s = Raise e -> e <> OutOfFuel.
Proof.
rewrite /loop_body /sweep; case il: inner_loop => [//|e1] /= [<-].
exact: inner_loop_fuel il.
Qed.

Lemma passes_fuel (k : nat) (i : N) (s : state) (o : double F) (e : error) :
  passes k i s o = Raise e -> e <> OutOfFuel.
Proof.
elim: k i s o => [//|k IH] i s o /=.
case lb: loop_body => [so1|e1] /=; first exact: IH.
by case=> <-; exact: loop_body_fuel lb.
Qed.


(** C10. With [maxIterations = 1] the loop body never runs: [Optimize]
    returns the initial [0.0] of [overallObjective] with no sweep and no
    [Evaluate] call, after the [numFunctions] gradient evaluations of the
    initialization, and leaves the caller's iterate as it was. *)
Theorem single_iteration_budget (x0 it0 : mat) :
  maxIterations opt = 1%num -> (0 < numFunctions)%N ->
  exists2 r, Optimize x0 it0 = Ok r &
    [/\ value r = Fin 0 /\ outcome r = MAX_ITERATIONS_REACHED,
        sweeps_logged (trace (final r)) = 0%N,
        evaluate_calls (trace (final r)) = 0%N,
        gradient_calls (trace (final r)) = numFunctions
      & iterate (final r) = it0
        /\ trace (final r)
           = [seq CallGradient x0 i | i <- iota 0 numFunctions]
             ++ [:: LogMaximum]].
Proof.
move=> max1 n_gt0.
have [s0 init [_ _ _ _ [hi htr]]] := initializeP x0 it0 n_gt0.
have [gr0 ev0 sw0] := initialize_counts init.
rewrite (Optimize_at_bound max1 init); eexists; first by reflexivity.
have [-> -> ->] := counts_at_bound s0 (Fin 0).
rewrite gr0 ev0 sw0; split; [by []|by []|by []|by []|].
by rewrite /= /iterate /= hi vectoriseK htr.
Qed.

(** Every return of [Optimize], read as a number of passes. *)
Lemma OptimizeP (x0 it0 : mat) (r : result) :
  Optimize x0 it0 = Ok r ->
  exists s0 k,
    initialize x0 it0 = Ok s0 /\ returns_after k 1%num s0 (Fin 0) r.
Proof.
rewrite /Optimize; case init: initialize => [s0|e]; last by rewrite bind_Raise.
by rewrite bind_Ok => /outer_loopP [k ret]; exists s0, k.
Qed.

Lemma terminal_not_progress (r : result) :
  sweeps_logged [:: terminal_event r] = 0%N.
Proof. by rewrite /terminal_event; case: (outcome r). Qed.



(** ** Further properties: the loops *)

Lemma outer_loop_terminates (fuel : nat) (i : N) (s : state) (o : double F) :
  (i < SizeT.modulus)%num -> (maxIterations opt < SizeT.modulus)%num ->
  (N.to_nat (SizeT.distance i (maxIterations opt)) <= fuel)%N ->
  outer_loop fuel i s o <> Raise OutOfFuel.
Proof.
move=> + ltm; elim: fuel i s o => [|fuel IH] i s o lti.
  case: (N.eq_dec i (maxIterations opt)) => [->|ne].
    by rewrite outer_loop_done.
  by rewrite (SizeTFacts.distance_incr lti ltm ne) N2Nat.inj_succ.
case: (N.eq_dec i (maxIterations opt)) => [->|ne].
  by rewrite outer_loop_done.
rewrite (SizeTFacts.distance_incr lti ltm ne) N2Nat.inj_succ ltnS => le.
rewrite outer_loop_next //; case e: loop_body => [so|err] /=; last first.
  by case=> eo; apply: (loop_body_fuel e).
case: ifP => // _; case: ifP => // _.
exact: IH (SizeTFacts.incr_lt i) le.
Qed.

(** X1. The outer loop always ends: whatever the objective does, and also
    for [maxIterations = 0], where the counter has to wrap around, a run
    never needs more passes than a [size_t] counter has values. *)
Theorem Optimize_terminates (x0 it0 : mat) :
  (maxIterations opt < SizeT.modulus)%num ->
  Optimize x0 it0 <> Raise OutOfFuel.
Proof.
move=> ltm; rewrite /Optimize; case init: initialize => [s0|e].
  have lt1 : (1 < SizeT.modulus)%num by [].
  rewrite bind_Ok.
  exact: outer_loop_terminates lt1 ltm (fuel_enough 1).
by rewrite bind_Raise; move: init; rewrite /initialize;
   case: (numFunctions) => [[<-]|n].
Qed.

Lemma loop_body_sweeps (i : N) (s : state) (so : state * double F) :
  loop_body i s = Ok so ->
  sweeps_logged (trace so.1) = (sweeps_logged (trace s)).+1.
Proof.
move=> e; rewrite /sweeps_logged (loop_body_count _ e) //.
by rewrite count_cat count_map_none //= add0n addn0 addn1.
Qed.

Lemma emit_terminal_sweeps (r : result) (s : state) :
  final r = emit s [:: terminal_event r] ->
  sweeps_logged (trace (final r)) = sweeps_logged (trace s).
Proof.
move=> ->; rewrite /sweeps_logged emit_count -/(sweeps_logged [:: _]).
by rewrite terminal_not_progress addn0.
Qed.

Lemma outer_loop_sweeps_le (fuel : nat) (i : N) (s : state) (o : double F)
    (r : result) :
  (i < SizeT.modulus)%num -> (maxIterations opt < SizeT.modulus)%num ->
  outer_loop fuel i s o = Ok r ->
  (sweeps_logged (trace (final r))
   <= sweeps_logged (trace s)
      + N.to_nat (SizeT.distance i (maxIterations opt)))%N.
Proof.
move=> + ltm; elim: fuel i s o => [|fuel IH] i s o lti.
  case: (N.eq_dec i (maxIterations opt)) => [->|/N.eqb_neq ne].
    rewrite outer_loop_done => -[<-].
    by have [-> _ _] := counts_at_bound s o; rewrite leq_addr.
  by rewrite /= ne.
case: (N.eq_dec i (maxIterations opt)) => [->|ne].
  rewrite outer_loop_done => -[<-].
  by have [-> _ _] := counts_at_bound s o; rewrite leq_addr.
rewrite (SizeTFacts.distance_incr lti ltm ne) N2Nat.inj_succ.
rewrite outer_loop_next //; case e: loop_body => [so|//] /=.
have sw := loop_body_sweeps e.
case: ifP => [_ [<-]|_].
  rewrite (@emit_terminal_sweeps _ so.1) // sw.
  by rewrite -addn1 leq_add2l.
case: ifP => [_ [<-]|_ /(IH _ _ _ (SizeTFacts.incr_lt i)) le].
  rewrite (@emit_terminal_sweeps _ so.1) // sw.
  by rewrite -addn1 leq_add2l.
by rewrite addnS -addSn -sw.
Qed.


Lemma inner_step_gradient_calls (s s' : state) (it : nat) :
  inner_step s it = Ok s' ->
  (gradient_calls (trace s) <= gradient_calls (trace s')
   <= (gradient_calls (trace s)).+1)%N.
Proof.
rewrite /inner_step; case: ifP => _; last by case=> <-; rewrite leqnn leqnSn.
move=> /update_stepP /= [_ _ _ _ ->].
by rewrite /gradient_calls -cats1 count_cat /= addn0 addn1 leqnSn leqnn.
Qed.

Lemma inner_loop_gradient_calls (js : seq nat) (s s' : state) :
  inner_loop s js = Ok s' ->
  (gradient_calls (trace s) <= gradient_calls (trace s')
   <= gradient_calls (trace s) + size js)%N.
Proof.
elim: js s => [s [<-]|j js IH s /=]; first by rewrite addn0 leqnn.
case e: inner_step => [s1|//] /= /IH /andP [lo hi].
have /andP [lo1 hi1] := inner_step_gradient_calls e.
rewrite (leq_trans lo1 lo) (leq_trans hi) //.
by rewrite addnS -addSn leq_add2r.
Qed.

Lemma loop_body_gradient_calls (i : N) (s : state) (so : state * double F) :
  loop_body i s = Ok so ->
  (gradient_calls (trace s) <= gradient_calls (trace so.1)
   <= gradient_calls (trace s) + numFunctions)%N.
Proof.
move=> /loop_bodyP [s1 /inner_loop_gradient_calls + ->].
rewrite size_iota /gradient_calls /= count_cat count_cat count_map_none //=.
by rewrite !addn0.
Qed.

Lemma passes_gradient_calls (k : nat) (i : N) (s : state) (o : double F)
    (so : state * double F) :
  passes k i s o = Ok so ->
  (gradient_calls (trace s) <= gradient_calls (trace so.1)
   <= gradient_calls (trace s) + k * numFunctions)%N.
Proof.
elim: k i s o => [i s o [<-]|k IH i s o /=]; first by rewrite mul0n addn0 leqnn.
case e: loop_body => [so1|//] /= /IH /andP [lo hi].
have /andP [lo1 hi1] := loop_body_gradient_calls e.
rewrite (leq_trans lo1 lo) (leq_trans hi) //.
by rewrite mulSn addnA leq_add2r.
Qed.

Lemma terminal_no_call (r : result) :
  gradient_calls [:: terminal_event r] = 0%N
  /\ evaluate_calls [:: terminal_event r] = 0%N.
Proof. by rewrite /terminal_event; case: (outcome r). Qed.



(** ** Further properties: the objective *)

Lemma dadd_nonfinite (a b : double F) :
  isnan (dadd a b) || isinf (dadd a b)
  = (isnan a || isinf a) || (isnan b || isinf b).
Proof. by case: a => [x|||]; case: b => [z|||]. Qed.

Lemma ddiv_size_nonfinite (a : double F) (n : nat) :
  (0 < n)%N ->
  isnan (ddiv_size a n) || isinf (ddiv_size a n) = isnan a || isinf a.
Proof. by case: n => // n _; case: a. Qed.

(** X5. The mean objective is NaN or infinite exactly when the value of
    some component is. *)
Theorem objective_nonfinite (x : mat) :
  (0 < numFunctions)%N ->
  isnan (objective x) || isinf (objective x)
  = has (fun i => isnan (Evaluate function x i)
                  || isinf (Evaluate function x i))
        (iota 0 numFunctions).
Proof.
move=> n_gt0; rewrite /objective ddiv_size_nonfinite //.
have -> : forall (l : seq nat) (a : double F),
    isnan (foldl (fun acc i => dadd acc (Evaluate function x i)) a l)
    || isinf (foldl (fun acc i => dadd acc (Evaluate function x i)) a l)
    = (isnan a || isinf a)
      || has (fun i => isnan (Evaluate function x i)
                       || isinf (Evaluate function x i)) l.
  elim=> [|i l IH] a /=; first by rewrite orbF.
  by rewrite IH dadd_nonfinite -!orbA.
by [].
Qed.

Lemma foldl_dadd_finite (x : mat) (v : nat -> F) (l : seq nat) (a : F) :
  (forall i, i \in l -> Evaluate function x i = Fin (v i)) ->
  foldl (fun acc i => dadd acc (Evaluate function x i)) (Fin a) l
  = Fin (a + \sum_(i <- l) v i).
Proof.
elim: l a => [|i l IH] a fin /=; first by rewrite big_nil addr0.
rewrite fin ?mem_head //= IH => [j lj|]; last by rewrite big_cons addrA.
by apply: fin; rewrite inE lj orbT.
Qed.

(** X6. When every component has a finite value the objective is their
    mean. *)
Theorem objective_mean (x : mat) (v : nat -> F) :
  (0 < numFunctions)%N ->
  (forall i, (i < numFunctions)%N -> Evaluate function x i = Fin (v i)) ->
  objective x
  = Fin ((\sum_(i < numFunctions) v i) / numFunctions%:R).
Proof.
move=> n_gt0 fin; rewrite /objective (@foldl_dadd_finite x v) => [i|].
  by rewrite mem_iota add0n /=; exact: fin.
by rewrite add0r sum_iota_ord; case: (numFunctions) n_gt0.
Qed.

(** ** Further properties: runs that cannot fail *)

Section Safe.

(** A property of the variables that lets every inner step succeed and that
    the steps and the log lines keep. *)
Variable P : state -> Prop.
Hypothesis P_step :
  forall s it, P s -> (it < numFunctions)%N ->
  exists2 s', inner_step s it = Ok s' & P s'.
Hypothesis P_emit :
  forall s es, gradient_calls es = 0%N -> P s -> P (emit s es).

Lemma safe_inner_loop (js : seq nat) (s : state) :
  (0 < numFunctions)%N -> P s ->
  exists2 s', inner_loop s js = Ok s' & P s'.
Proof.
move=> n_gt0; elim: js s => [|j js IH] s Ps /=; first by exists s.
have [s1 -> Ps1] := P_step Ps (selected_lt j n_gt0).
by rewrite bind_Ok; exact: IH.
Qed.

Lemma safe_loop_body (i : N) (s : state) :
  P s -> exists2 so, loop_body i s = Ok so & P so.1.
Proof.
move=> Ps; rewrite /loop_body.
have [s1 -> Ps1] : exists2 s', sweep s = Ok s' & P s'.
  rewrite /sweep; case: (posnP numFunctions) => [->|n_gt0]; first by exists s.
  exact: safe_inner_loop.
rewrite bind_Ok; eexists; first by reflexivity.
apply: P_emit Ps1.
by rewrite /gradient_calls count_cat count_map_none.
Qed.

Lemma safe_outer_loop (fuel : nat) (i : N) (s : state) (o : double F) :
  (i < SizeT.modulus)%num -> (maxIterations opt < SizeT.modulus)%num ->
  (N.to_nat (SizeT.distance i (maxIterations opt)) <= fuel)%N ->
  P s -> exists2 r, outer_loop fuel i s o = Ok r & P (final r).
Proof.
move=> + ltm; elim: fuel i s o => [|fuel IH] i s o lti.
  case: (N.eq_dec i (maxIterations opt)) => [->|ne].
    by rewrite outer_loop_done => _ Ps; eexists; [reflexivity|exact: P_emit].
  by rewrite (SizeTFacts.distance_incr lti ltm ne) N2Nat.inj_succ.
case: (N.eq_dec i (maxIterations opt)) => [->|ne].
  by rewrite outer_loop_done => _ Ps; eexists; [reflexivity|exact: P_emit].
rewrite (SizeTFacts.distance_incr lti ltm ne) N2Nat.inj_succ ltnS => le Ps.
rewrite outer_loop_next //; have [so -> Pso] := safe_loop_body i Ps.
rewrite bind_Ok; case: ifP => _.
  by eexists; [reflexivity|exact: P_emit].
case: ifP => _; first by eexists; [reflexivity|exact: P_emit].
exact: IH (SizeTFacts.incr_lt i) le Pso.
Qed.

Lemma safe_Optimize (x0 it0 : mat) (s0 : state) :
  (maxIterations opt < SizeT.modulus)%num ->
  initialize x0 it0 = Ok s0 -> P s0 ->
  exists2 r, Optimize x0 it0 = Ok r & P (final r).
Proof.
move=> ltm init Ps0; rewrite /Optimize init bind_Ok.
have lt1 : (1 < SizeT.modulus)%num by [].
exact: safe_outer_loop lt1 ltm (fuel_enough 1) Ps0.
Qed.

End Safe.

(** X7. A sweep over an idle memory, where no stored point differs from the
    iterate, changes nothing at all: no call, no write. *)
Theorem idle_sweep (s : state) : idle s -> sweep s = Ok s.
Proof.
move=> idle_s; rewrite /sweep.
case: (posnP numFunctions) => [->|n_gt0] //.
elim: (iota 0 _) => [|j js IH] //=.
by rewrite inner_step_skip ?bind_Ok // idle_s // selected_lt.
Qed.

(** X8. Started from the random point itself the optimizer never moves: the
    run returns, with the caller's iterate as it was and no gradient
    evaluation beyond the [numFunctions] of the initialization. *)
Theorem idle_run (x0 : mat) :
  (0 < numFunctions)%N -> (maxIterations opt < SizeT.modulus)%num ->
  exists2 r, Optimize x0 x0 = Ok r &
    [/\ iterate (final r) = x0,
        gradient_calls (trace (final r)) = numFunctions
      & idle (final r)].
Proof.
move=> n_gt0 ltm.
have [s0 init [hs _ _ _ [hi _]]] := initializeP x0 x0 n_gt0.
have [gr0 _ _] := initialize_counts init.
pose P (s : state) :=
  [/\ idle s, iterateVec s = vectorise x0
     & gradient_calls (trace s) = numFunctions].
have P_step s it : P s -> (it < numFunctions)%N ->
    exists2 s', inner_step s it = Ok s' & P s'.
  by move=> Ps lt_it; exists s => //; case: Ps => idle_s _ _;
     rewrite inner_step_skip // idle_s.
have P_emit s es : gradient_calls es = 0%N -> P s -> P (emit s es).
  move=> no_call [idle_s ei gr]; split=> //.
  by rewrite /gradient_calls emit_count -/(gradient_calls _) gr
             -/(gradient_calls es) no_call addn0.
have Ps0 : P s0 by split=> // i /hs [-> _ _]; rewrite hi.
have [r run [idle_r ei gr]] := safe_Optimize P_step P_emit ltm init Ps0.
by exists r => //; split=> //; rewrite /iterate ei vectoriseK.
Qed.


Lemma fuel_bound_pos : exists fuel, fuel_bound = fuel.+1.
Proof.
have : (0 < fuel_bound)%coq_nat.
  by rewrite /fuel_bound; have := SizeTFacts.modulus_gt1; lia.
by case: fuel_bound => [h|fuel _]; [lia|exists fuel].
Qed.


(** ** Further properties: sums of isotropic quadratics *)

Lemma vectoriseD (A1 A2 : mat) :
  vectorise (A1 + A2) = vectorise A1 + vectorise A2.
Proof. by rewrite /vectorise !linearD. Qed.

Lemma vectoriseZ (a : F) (A : mat) : vectorise (a *: A) = a *: vectorise A.
Proof. by rewrite /vectorise !linearZ. Qed.

Section Quadratic.

(** The components are [f_i x = |x - c_i|^2 / 2]. *)
Variable c : nat -> mat.
Hypothesis gradient_c : forall x i, Gradient function x i = x - c i.

Local Notation mean :=
  (vectorise ((numFunctions%:R)^-1 *: \sum_(i < numFunctions) c i)).

Lemma quadratic_initialize (x0 it0 : mat) (s : state) :
  initialize x0 it0 = Ok s -> quadratic_memory c s.
Proof.
move=> init; have n_gt0 := initialize_pos init.
have [s1 e1 [hs hg hB hu _]] := initializeP x0 it0 n_gt0.
move: init; rewrite e1 => -[<-]; split=> // [i /hs [] //|i /hs [-> _ ->]|].
  by rewrite vectoriseK.
rewrite hu /gVec hg -vectoriseB; congr vectorise.
rewrite (eq_bigr (fun i : 'I_numFunctions => x0 - c i)) => [i _|] //.
rewrite sumrB sumr_const card_ord scalerBr -scaler_nat scalerA.
by rewrite mulVf ?nat_unit // scale1r subKr.
Qed.

Lemma quadratic_update (s : state) (it : nat) :
  quadratic_memory c s -> (it < numFunctions)%N ->
  iterateVec s != t s it ->
  exists2 s', inner_step s it = Ok s' &
    quadratic_memory c s'
    /\ iterateVec s' = stepSize opt *: mean
                       + (1 - stepSize opt) *: iterateVec s.
Proof.
move=> [hQ hy hB hu] lt_it moved.
have eyy : vectorise (Gradient function (iterate s) it - y s it)
           = iterateVec s - t s it.
  rewrite gradient_c (hy _ lt_it) opprB addrA subrK vectoriseB.
  by rewrite /iterate !reshapeK.
have nz : as_scalar ((iterateVec s - t s it)^T *m (iterateVec s - t s it))
          != 0.
  by apply: self_product_neq0; rewrite subr_eq0.
rewrite inner_step_moved // /update_step eyy (hQ _ lt_it) mulmx1.
rewrite (negbTE nz) /= stochasticHessian_identity hB subrr scaler0 addr0.
rewrite unitmx1 invmx1; eexists; first by reflexivity.
have hu' : u s + (1 / numFunctions%:R)
                 *: (1%:M *m iterateVec s - 1%:M *m t s it)
           - vectorise (g s + (1 / numFunctions%:R)
                              *: (Gradient function (iterate s) it - y s it))
           = mean.
  rewrite vectoriseD vectoriseZ eyy !mul1mx opprD addrACA subrr addr0.
  exact: hu.
split; first split=> //= [i lt_i|i lt_i].
- by rewrite /set_slice; case: eqP => // _; exact: hQ.
- rewrite /set_slice; case: eqP => [->|_]; last exact: hy.
  by rewrite gradient_c.
by rewrite /= hu' -scalemxAl mul1mx.
Qed.

(** X11. On a sum of isotropic quadratics every inner step of a run
    succeeds, and one that moves replaces the iterate by its blend with the
    mean of the centres, with weights [1 - stepSize] and [stepSize]: the
    minimiser itself when [stepSize = 1]. *)
Theorem quadratic_step (x0 it0 : mat) (s : state) (it : nat) :
  reachable x0 it0 s -> (it < numFunctions)%N ->
  exists2 s', inner_step s it = Ok s' &
    if iterateVec s == t s it then s' = s
    else iterateVec s' = stepSize opt *: mean
                         + (1 - stepSize opt) *: iterateVec s.
Proof.
move=> reach lt_it.
have memory : quadratic_memory c s.
  elim: reach => {s} [s0|s0 it' s1 _ mem lt' step|s0 es _ mem] //.
    exact: quadratic_initialize.
  move: step; rewrite /inner_step moved_norm.
  case: ifP => [moved|_ [<-] //].
  have [s2 e2 [mem2 _]] := quadratic_update mem lt' moved.
  by rewrite -(inner_step_moved moved) e2 => -[<-].
case: (boolP (iterateVec s == t s it)) => [/eqP same|moved].
  by exists s; [exact: inner_step_skip|].
have [s' step [_ ei]] := quadratic_update memory lt_it moved.
by exists s'.
Qed.

(** X12. On a sum of isotropic quadratics a run always returns: no division
    by zero and no singular matrix can occur. *)
Theorem quadratic_returns (x0 it0 : mat) :
  (0 < numFunctions)%N -> (maxIterations opt < SizeT.modulus)%num ->
  exists r, Optimize x0 it0 = Ok r.
Proof.
move=> n_gt0 ltm.
have [s0 init _] := initializeP x0 it0 n_gt0.
have P_step s it : quadratic_memory c s -> (it < numFunctions)%N ->
    exists2 s', inner_step s it = Ok s' & quadratic_memory c s'.
  move=> mem lt_it; case: (boolP (iterateVec s == t s it)) => [/eqP same|moved].
    by exists s => //; exact: inner_step_skip.
  by have [s' step [mem' _]] := quadratic_update mem lt_it moved; exists s'.
have P_emit s es : gradient_calls es = 0%N ->
    quadratic_memory c s -> quadratic_memory c (emit s es) by [].
have [r run _] :=
  safe_Optimize P_step P_emit ltm init (quadratic_initialize init).
by exists r.
Qed.

End Quadratic.

(** ** Further properties: the curvature stays positive *)

Lemma as_scalarD (A1 A2 : 'M[F]_1) :
  as_scalar (A1 + A2) = as_scalar A1 + as_scalar A2.
Proof. by rewrite /as_scalar mxE. Qed.

Lemma as_scalarN (A : 'M[F]_1) : as_scalar (- A) = - as_scalar A.
Proof. by rewrite /as_scalar mxE. Qed.

Lemma as_scalarZ (a : F) (A : 'M[F]_1) :
  as_scalar (a *: A) = a * as_scalar A.
Proof. by rewrite /as_scalar mxE. Qed.

Lemma as_scalarM (A1 A2 : 'M[F]_1) :
  as_scalar (A1 *m A2) = as_scalar A1 * as_scalar A2.
Proof. by rewrite {1}[A1]as_scalarE mul_scalar_mx as_scalarZ. Qed.

Lemma as_scalar_tr (A : 'M[F]_1) : as_scalar A^T = as_scalar A.
Proof. by rewrite /as_scalar mxE. Qed.

(** The form [x^T * A * y] of a symmetric [A] is symmetric. *)
Lemma form_sym (A : sqmat) (x z : vec) :
  A^T = A -> as_scalar (x^T *m A *m z) = as_scalar (z^T *m A *m x).
Proof.
by move=> symA; rewrite -as_scalar_tr !trmx_mul trmxK symA mulmxA.
Qed.

Lemma formBl (A : sqmat) (x1 x2 z : vec) (a : F) :
  as_scalar ((x1 - a *: x2)^T *m A *m z)
  = as_scalar (x1^T *m A *m z) - a * as_scalar (x2^T *m A *m z).
Proof.
rewrite [(x1 - a *: x2)^T]linearB /= [(a *: x2)^T]linearZ /=.
by rewrite !mulmxBl -!scalemxAl as_scalarD as_scalarN as_scalarZ.
Qed.

Lemma formBr (A : sqmat) (x z1 z2 : vec) (a : F) :
  as_scalar (x^T *m A *m (z1 - a *: z2))
  = as_scalar (x^T *m A *m z1) - a * as_scalar (x^T *m A *m z2).
Proof.
by rewrite mulmxBr -scalemxAr as_scalarD as_scalarN as_scalarZ.
Qed.

Lemma self_product_gt0 (v : vec) : v != 0 -> 0 < as_scalar (v^T *m v).
Proof.
move=> nz; rewrite lt0r self_product_neq0 //= self_product.
by apply: sumr_ge0 => i _; exact: sqr_ge0.
Qed.

Lemma identity_psd : positive_semidefinite (1%:M : sqmat).
Proof.
move=> z; rewrite mulmx1 self_product.
by apply: sumr_ge0 => i _; exact: sqr_ge0.
Qed.

(** Cauchy-Schwarz for a positive semi-definite form. *)
Lemma form_cauchy_schwarz (A : sqmat) (sv z : vec) :
  A^T = A -> positive_semidefinite A -> 0 < as_scalar (sv^T *m A *m sv) ->
  0 <= as_scalar (z^T *m A *m z)
       - (as_scalar (sv^T *m A *m sv))^-1
         * (as_scalar (sv^T *m A *m z)) ^+ 2.
Proof.
move=> symA psdA b_gt0.
set b := as_scalar (sv^T *m A *m sv) in b_gt0 *.
set beta := as_scalar (sv^T *m A *m z).
pose w : vec := z - (beta / b) *: sv.
have := psdA w.
rewrite /w formBl !formBr -/b -/beta (form_sym z sv symA) -/beta.
have b_neq0 : b != 0 by exact: lt0r_neq0.
have -> : as_scalar (z^T *m A *m z) - beta / b * beta
          - beta / b * (beta - beta / b * b)
          = as_scalar (z^T *m A *m z) - b^-1 * beta ^+ 2 by field.
by [].
Qed.

(** X13. The rank-two update keeps a symmetric positive semi-definite
    curvature positive semi-definite when both denominators are positive:
    the curvature condition [y^T * s > 0] and [s^T * Q * s > 0]. *)
Theorem stochasticHessian_psd (Qit : sqmat) (yy sv : vec) :
  Qit^T = Qit -> positive_semidefinite Qit ->
  0 < as_scalar (yy^T *m sv) -> 0 < as_scalar (sv^T *m Qit *m sv) ->
  positive_semidefinite (stochasticHessian Qit yy sv).
Proof.
move=> symQ psdQ a_gt0 b_gt0 z.
have cs := form_cauchy_schwarz z symQ psdQ b_gt0.
rewrite /stochasticHessian mulmxBr mulmxDr mulmxBl mulmxDl.
rewrite -!scalemxAr -!scalemxAl !(as_scalarD, as_scalarN, as_scalarZ).
have -> : z^T *m (yy *m yy^T) *m z = (z^T *m yy) *m (yy^T *m z).
  by rewrite !mulmxA.
have -> : z^T *m (Qit *m sv *m sv^T *m Qit) *m z
          = (z^T *m Qit *m sv) *m (sv^T *m Qit *m z).
  by rewrite !mulmxA.
rewrite !as_scalarM (form_sym z sv symQ).
have -> : as_scalar (z^T *m yy) = as_scalar (yy^T *m z).
  by rewrite -as_scalar_tr trmx_mul trmxK.
set q := as_scalar (z^T *m Qit *m z) in cs *.
set b := as_scalar (sv^T *m Qit *m sv) in cs b_gt0 *.
set beta := as_scalar (sv^T *m Qit *m z) in cs *.
set a := as_scalar (yy^T *m sv) in a_gt0 *.
set alpha := as_scalar (yy^T *m z).
have pos : 0 <= a^-1 * (alpha * alpha).
  apply: mulr_ge0; first by rewrite invr_ge0 Order.POrderTheory.ltW.
  by rewrite -expr2 sqr_ge0.
move: cs; rewrite expr2 => cs.
by rewrite addrAC addr_ge0.
Qed.

End Theory.

(** * The rotation *)

Section RotationTheory.

Variable eT : Type.
Variables n_rows n_cols : nat.

Lemma flipudK : involutive (@flipud eT n_rows n_cols).
Proof. by move=> X; apply/matrixP => i j; rewrite !mxE rev_ordK. Qed.

Lemma fliplrK : involutive (@fliplr eT n_rows n_cols).
Proof. by move=> X; apply/matrixP => i j; rewrite !mxE rev_ordK. Qed.

Lemma Rotate180E (input : 'M[eT]_(n_rows, n_cols)) i j :
  Rotate180 input i j = input (rev_ord i) (rev_ord j).
Proof. by rewrite !mxE. Qed.

(** X14. [Rotate180] puts the element [(i, j)] of its input at the mirrored
    place [(n_rows - 1 - i, n_cols - 1 - j)], the two flips commute, and
    rotating twice gives the input back; on a cube this holds slice by
    slice, and the number of slices is kept. *)
Theorem Rotate180_involutive :
  [/\ forall (input : 'M[eT]_(n_rows, n_cols)) i j,
        Rotate180 input i j = input (rev_ord i) (rev_ord j)
        /\ (n_rows.-1 - i = rev_ord i :> nat)%N,
      forall input : 'M[eT]_(n_rows, n_cols),
        fliplr (flipud input) = flipud (fliplr input),
      forall input : 'M[eT]_(n_rows, n_cols),
        Rotate180 (Rotate180 input) = input
    & forall input : seq 'M[eT]_(n_rows, n_cols),
        size (Rotate180_cube input) = size input
        /\ Rotate180_cube (Rotate180_cube input) = input].
Proof.
split=> [input i j|input|input|input].
- split; first exact: Rotate180E.
  by rewrite /= subnS predn_sub.
- by apply/matrixP => i j; rewrite !mxE.
- by apply/matrixP => i j; rewrite !Rotate180E !rev_ordK.
- rewrite /Rotate180_cube size_map -map_comp; split=> //.
  rewrite -[RHS]map_id; apply: eq_map => X /=.
  by apply/matrixP => i j; rewrite !mxE !rev_ordK.
Qed.

End RotationTheory.

(** * The instance at work *)

Module ExampleFacts.

Import Example.

Lemma started_ok (iterate0 : 'M[algR]_(1, 1)) :
  initialize bowl origin iterate0 = Ok (started iterate0).
Proof. by []. Qed.

Lemma objective_bowl (x : 'M[algR]_(1, 1)) :
  objective bowl x = Fin ((x 0 0) ^+ 2 / 2%:R + 1).
Proof. by rewrite /objective /= add0r divr1. Qed.

Lemma bowl_continues (k : N) (x : 'M[algR]_(1, 1)) :
  continues (budget k) (objective bowl x).
Proof.
rewrite objective_bowl /continues /= -Order.TotalTheory.leNgt.
by rewrite addr_ge0 // divr_ge0 ?sqr_ge0 // ler0n.
Qed.

(** From the origin nothing moves: every inner step is skipped. *)
Lemma passes_idle (k : N) (n : nat) (i : N) (s : state algR 1 1)
    (o : double algR) :
  iterateVec s = t s 0%N ->
  exists2 so, passes (budget k) bowl n i s o = Ok so
            & iterateVec so.1 = iterateVec s.
Proof.
elim: n i s o => [|n IH] i s o idle; first by exists (s, o).
rewrite /= /loop_body /sweep /= /selected modnn inner_step_skip //=.
set s1 := emit _ _; set o1 := objective _ _.
by have [so -> <-] := IH (SizeT.incr i) s1 o1 idle; exists so.
Qed.

Lemma returned_ok (k : N) (iterate0 : 'M[algR]_(1, 1)) :
  (k < SizeT.modulus)%num ->
  iterate0 = origin \/ k = 1%num ->
  Optimize (budget k) bowl origin iterate0 = Ok (returned k iterate0).
Proof.
move=> ltk cond.
have [r e] : exists r, Optimize (budget k) bowl origin iterate0 = Ok r.
  have lt1 : (1 < SizeT.modulus)%num by [].
  rewrite /Optimize started_ok bind_Ok.
  rewrite (@outer_loop_budget _ _ _ (budget k) bowl fuel_bound 1%num
             (started iterate0) (Fin 0) (bowl_continues k) lt1 ltk
             (fuel_enough (budget k) 1)).
  case: cond => [->|k1].
    have idle : iterateVec (started origin) = t (started origin) 0%N by [].
    have [so -> _] :=
      passes_idle k (N.to_nat (SizeT.distance 1 (maxIterations (budget k))))
        1%num (Fin 0) idle.
    by rewrite bind_Ok; eexists.
  rewrite [maxIterations _]k1 SizeTFacts.distance_same //.
  by rewrite [N.to_nat 0]/= [passes _ _ _ _ _ _]/= bind_Ok; eexists.
by rewrite /returned e.
Qed.

Lemma returned_at_bound (iterate0 : 'M[algR]_(1, 1)) :
  returned 1 iterate0
  = Result MAX_ITERATIONS_REACHED (Fin 0)
           (emit (started iterate0) [:: LogMaximum]).
Proof.
rewrite /returned.
by rewrite (@Optimize_at_bound _ _ _ (budget 1) bowl _ _ (started iterate0)).
Qed.

Lemma unit_point_neq0 : vectorise unit_point != 0.
Proof.
rewrite -(inj_eq (can_inj (@reshapeK algR 1 1))) vectoriseK.
rewrite reshape0.
by apply/eqP => /matrixP /(_ 0 0) /eqP; rewrite !mxE eqxx oner_eq0.
Qed.

Lemma unit_point_moved : unit_point != origin.
Proof.
by apply/eqP => /matrixP /(_ 0 0) /eqP; rewrite !mxE eqxx oner_eq0.
Qed.

(** The run from the origin under the budget 2 logs one sweep. *)
Lemma returned_two_sweeps :
  sweeps_logged (trace (final (returned 2 origin))) = 1%N.
Proof.
have lt1 : (1 < SizeT.modulus)%num by [].
have lt2 : (2 < SizeT.modulus)%num by [].
have := returned_ok lt2 (or_introl (erefl origin)).
rewrite /Optimize started_ok bind_Ok.
rewrite (@outer_loop_budget _ _ _ (budget 2) bowl fuel_bound 1%num
           (started origin) (Fin 0) (bowl_continues 2) lt1 lt2
           (fuel_enough (budget 2) 1)).
case pk: (passes _ _ _ _ _ _) => [so|e]; last by rewrite bind_Raise.
rewrite bind_Ok => eq; rewrite -(Ok_inj eq) {eq}.
have [-> _ _] := counts_at_bound so.1 so.2.
rewrite (passes_sweeps_logged pk).
by have [_ _ ->] := initialize_counts (started_ok origin).
Qed.

End ExampleFacts.

(** * The claims on the instance *)

Import Example.

Lemma aggregate_consistency_witness :
  aggregates_consistent bowl (started origin).
Proof.
apply: (@aggregate_consistency algR 1 1 (budget 2) bowl origin origin).
exact: (@reach_init _ _ _ (budget 2) bowl origin origin (started origin)
          (ExampleFacts.started_ok origin)).
Defined.

Lemma secant_property_witness :
  stochasticHessian 1%:M (vectorise unit_point) (vectorise unit_point)
  *m vectorise unit_point
  = vectorise unit_point.
Proof.
have [algebra _] := secant_property (budget 2) bowl.
have [] // := algebra 1%:M (vectorise unit_point) (vectorise unit_point).
- exact: self_product_neq0 ExampleFacts.unit_point_neq0.
- by rewrite mulmx1; exact: self_product_neq0 ExampleFacts.unit_point_neq0.
Defined.

Lemma initialization_witness :
  exists2 s, initialize bowl origin unit_point = Ok s
           & t s 0%N = vectorise origin /\ iterate s = unit_point.
Proof.
have [s init [hs _ hi _ _]] :=
  @initialization algR 1 1 bowl origin unit_point isT.
by exists s => //; split=> //; have [] := hs 0%N isT.
Defined.

Lemma skip_idempotence_witness :
  inner_step (budget 2) bowl (started origin) 0 = Ok (started origin).
Proof.
by have [] := @skip_idempotence algR 1 1 (budget 2) bowl (started origin) 0%N
                erefl.
Defined.

Lemma cyclic_visiting_order_witness :
  sweep (budget 2) bowl (started origin)
  = visit (budget 2) bowl (started origin) [:: 0%N].
Proof.
by have [] :=
  @cyclic_visiting_order algR 1 1 (budget 2) bowl (started origin) isT.
Defined.

Lemma damped_newton_step_witness :
  exists2 s', inner_step (budget 2) bowl (started unit_point) 0 = Ok s'
            & B s' *m iterateVec s' = u s' - gVec s'.
Proof.
pose s := started unit_point.
have nz := ExampleFacts.unit_point_neq0.
have esv : iterateVec s - t s 0%N = vectorise unit_point.
  by rewrite -[t s 0%N]/(vectorise 0) vectorise0 subr0.
have eyy : vectorise (Gradient bowl (iterate s) 0 - y s 0%N)
           = vectorise unit_point.
  rewrite -[y s 0%N]/(0) subr0 -[Gradient bowl _ _]/(iterate s).
  by rewrite /iterate -[iterateVec s]/(vectorise unit_point) vectoriseK.
have neq : iterateVec s != t s 0%N.
  by rewrite -[t s 0%N]/(vectorise 0) vectorise0.
have d1 : as_scalar ((vectorise (Gradient bowl (iterate s) 0 - y s 0%N))^T
                     *m (iterateVec s - t s 0%N)) != 0.
  by rewrite eyy esv; exact: self_product_neq0.
have d2 : as_scalar ((iterateVec s - t s 0%N)^T *m Q s 0%N
                     *m (iterateVec s - t s 0%N)) != 0.
  by rewrite esv -[Q s 0%N]/(1%:M) mulmx1; exact: self_product_neq0.
have uB : B s + (1 / (NumFunctions bowl)%:R)
                *: (stochasticHessian (Q s 0%N)
                      (vectorise (Gradient bowl (iterate s) 0 - y s 0%N))
                      (iterateVec s - t s 0%N)
                    - Q s 0%N) \in unitmx.
  rewrite eyy esv -[Q s 0%N]/(1%:M) -[B s]/(1%:M).
  by rewrite stochasticHessian_identity subrr scaler0 addr0 unitmx1.
have [s' step [[eB eu eg] _ /(_ erefl) [_ newton]]] :=
  @damped_newton_step algR 1 1 (budget 2) bowl s 0%N neq d1 d2 uB.
by exists s' => //; rewrite eB eu /gVec eg.
Defined.






Lemma single_iteration_budget_witness :
  exists2 r, Optimize (budget 1) bowl origin unit_point = Ok r
           & value r = Fin 0 /\ iterate (final r) = unit_point.
Proof.
have [r ok [[ev _] _ _ _ [ei _]]] :=
  @single_iteration_budget algR 1 1 (budget 1) bowl origin unit_point
    erefl isT.
exact: ex_intro2 _ _ r ok (conj ev ei).
Defined.

(** * The further properties on the instances *)

Import Instances.

Lemma Optimize_terminates_witness :
  Optimize (budget 0) bowl origin unit_point <> Raise OutOfFuel.
Proof.
have lt0 : (maxIterations (budget 0) < SizeT.modulus)%num by [].
exact: (@Optimize_terminates algR 1 1 (budget 0) bowl origin unit_point lt0).
Defined.




Lemma objective_nonfinite_witness :
  isnan (objective bowl unit_point) || isinf (objective bowl unit_point)
  = has (fun i => isnan (Evaluate bowl unit_point i)
                  || isinf (Evaluate bowl unit_point i))
        (iota 0 1).
Proof. exact: (@objective_nonfinite algR 1 1 bowl unit_point isT). Defined.

Lemma objective_mean_witness :
  objective bowl unit_point
  = Fin ((\sum_(i < 1) ((unit_point 0 0) ^+ 2 / 2%:R + 1)) / 1%:R).
Proof.
apply: (@objective_mean algR 1 1 bowl unit_point
          (fun=> (unit_point 0 0) ^+ 2 / 2%:R + 1) isT).
by move=> i _.
Defined.

Lemma idle_sweep_witness :
  sweep (budget 2) bowl (started origin) = Ok (started origin).
Proof.
apply: idle_sweep => i; rewrite ltnS leqn0 => /eqP ->.
by [].
Defined.

Lemma idle_run_witness :
  exists2 r, Optimize (budget 3) bowl origin origin = Ok r
           & iterate (final r) = origin.
Proof.
have lt3 : (maxIterations (budget 3) < SizeT.modulus)%num by [].
have [r run [ei _ _]] := @idle_run algR 1 1 (budget 3) bowl origin isT lt3.
exact: ex_intro2 _ _ r run ei.
Defined.



Lemma quadratic_step_witness :
  exists2 s', inner_step (budget 2) bowl (started unit_point) 0 = Ok s'
            & iterateVec s' = vectorise origin.
Proof.
have grad : forall (x : 'M[algR]_(1, 1)) i, Gradient bowl x i = x - centre i.
  by move=> x i; rewrite /centre subr0.
have reach : reachable (budget 2) bowl origin unit_point (started unit_point).
  exact: reach_init (ExampleFacts.started_ok unit_point).
have [s' step] := quadratic_step grad reach (isT : (0 < NumFunctions bowl)%N).
rewrite -[iterateVec _]/(vectorise unit_point) -[t _ _]/(vectorise origin).
rewrite (inj_eq (can_inj (@vectoriseK algR 1 1))).
rewrite (negbTE ExampleFacts.unit_point_moved) => ei.
exists s' => //; rewrite ei /= subrr scale0r addr0 scale1r.
by rewrite big_ord1 scaler0.
Defined.

Lemma quadratic_returns_witness :
  exists r, Optimize (budget 3) bowl origin unit_point = Ok r.
Proof.
have grad : forall (x : 'M[algR]_(1, 1)) i, Gradient bowl x i = x - centre i.
  by move=> x i; rewrite /centre subr0.
have lt3 : (maxIterations (budget 3) < SizeT.modulus)%num by [].
exact: (@quadratic_returns algR 1 1 (budget 3) bowl centre grad origin
          unit_point isT lt3).
Defined.

Lemma stochasticHessian_psd_witness :
  positive_semidefinite
    (stochasticHessian 1%:M (vectorise unit_point) (vectorise unit_point)).
Proof.
have nz := ExampleFacts.unit_point_neq0.
apply: stochasticHessian_psd.
- exact: trmx1.
- exact: identity_psd.
- exact: self_product_gt0.
- by rewrite mulmx1; exact: self_product_gt0.
Defined.
